(** * Document-to-speech: the chunked speech-playback core

    A shallow embedding of [lib/text-to-speech.ts] (the text chunker, the
    text cleaner and the [TextToSpeechEngine] class) and of the playback
    handlers of [components/tts-controls.tsx], with the properties the
    specification states about them.

    JavaScript strings are sequences of UTF-16 code units; they are modelled
    as lists of code units, so that [length], [trim], [split] and the regular
    expression class [\s] mean what they mean in the source. *)

From Stdlib Require Import String Ascii.
From Stdlib Require Import List ZArith NArith Bool Lia QArith Permutation.
From Equations Require Import Equations.
Import ListNotations.

(* ===================================================================== *)
(** ** JavaScript strings *)
(* ===================================================================== *)

Module JsString.

(** One UTF-16 code unit. *)
Definition char := N.
Definition jsstring := list char.

(** A string literal of the source, as code units (ASCII literals only). *)
Definition js (s : string) : jsstring :=
  List.map N_of_ascii (list_ascii_of_string s).

Definition charEqb (a b : char) : bool := N.eqb a b.

Fixpoint eqb (s t : jsstring) : bool :=
  match s, t with
  | [], [] => true
  | a :: s', b :: t' => charEqb a b && eqb s' t'
  | _, _ => false
  end.

(** [s.length > 0], also the truthiness of a string. *)
Definition nonEmpty (s : jsstring) : bool :=
  match s with [] => false | _ :: _ => true end.

(** ECMAScript WhiteSpace and LineTerminator code points: what
    [String.prototype.trim] strips and what [\s] matches. *)
Definition isWhiteSpace (c : char) : bool :=
  ((9 <=? c) && (c <=? 13)          (* TAB LF VT FF CR *)
   || (c =? 32)                      (* SPACE *)
   || (c =? 160)                     (* NO-BREAK SPACE *)
   || (c =? 5760)                    (* OGHAM SPACE MARK *)
   || ((8192 <=? c) && (c <=? 8202)) (* EN QUAD .. HAIR SPACE *)
   || (c =? 8232) || (c =? 8233)     (* LINE / PARAGRAPH SEPARATOR *)
   || (c =? 8239) || (c =? 8287)     (* NARROW NBSP, MEDIUM MATH SPACE *)
   || (c =? 12288)                   (* IDEOGRAPHIC SPACE *)
   || (c =? 65279))%N.               (* ZERO WIDTH NO-BREAK SPACE *)

Definition LF : char := 10%N.
Definition SPACE : char := 32%N.
Definition DOT : char := 46%N.

Definition isNewline (c : char) : bool := charEqb c LF.

(** The character class [[.!?]]. *)
Definition isTerminator (c : char) : bool :=
  ((c =? 46) || (c =? 33) || (c =? 63))%N.

Fixpoint trimStart (s : jsstring) : jsstring :=
  match s with
  | [] => []
  | c :: r => if isWhiteSpace c then trimStart r else s
  end.

Fixpoint trimEnd (s : jsstring) : jsstring :=
  match s with
  | [] => []
  | c :: r =>
      match trimEnd r with
      | [] => if isWhiteSpace c then [] else [c]
      | r' => c :: r'
      end
  end.

(** [s.trim()] *)
Definition trim (s : jsstring) : jsstring := trimEnd (trimStart s).

Fixpoint startsWith (s p : jsstring) {struct p} : bool :=
  match p, s with
  | [], _ => true
  | b :: p', a :: s' => charEqb a b && startsWith s' p'
  | _ :: _, [] => false
  end.

(** [s.endsWith(p)] *)
Definition endsWith (s p : jsstring) : bool := startsWith (rev s) (rev p).

(** [s.includes(p)] *)
Fixpoint includes (s p : jsstring) : bool :=
  startsWith s p
  || match s with
     | [] => false
     | _ :: r => includes r p
     end.

(** [s.split(/[.!?]+/)]: the pieces between maximal runs of terminators.
    [piece] is the piece being read (reversed); [inRun] tells that the
    previous code unit belonged to a separator match.  The last piece is
    always pushed, so the result is never empty, and a separator at either
    end of the string yields an empty piece there. *)
Fixpoint splitFrom (piece : jsstring) (inRun : bool) (s : jsstring)
  : list jsstring :=
  match s with
  | [] => [rev piece]
  | c :: r =>
      if isTerminator c
      then if inRun then splitFrom [] true r
           else rev piece :: splitFrom [] true r
      else splitFrom (c :: piece) false r
  end.

Definition splitSentences (s : jsstring) : list jsstring :=
  splitFrom [] false s.

(** [s.replace(/\s+/g, " ")]: every maximal run of white space becomes one
    SPACE.  [inRun] tells that the previous code unit was white space. *)
Fixpoint collapseFrom (inRun : bool) (s : jsstring) : jsstring :=
  match s with
  | [] => []
  | c :: r =>
      if isWhiteSpace c
      then if inRun then collapseFrom true r else SPACE :: collapseFrom true r
      else c :: collapseFrom false r
  end.

Definition collapseWhiteSpace (s : jsstring) : jsstring :=
  collapseFrom false s.

(** A match of [\s*\n] at the head of [s], greedy with backtracking: the
    white-space run that starts [s] is read to its end and the match stops
    after the last LF of that run.  Returns what follows the match. *)
Fixpoint afterLastNewline (s : jsstring) : option jsstring :=
  match s with
  | [] => None
  | c :: r =>
      if isWhiteSpace c
      then match afterLastNewline r with
           | Some t => Some t
           | None => if isNewline c then Some r else None
           end
      else None
  end.

Lemma afterLastNewline_length (s t : jsstring) :
  afterLastNewline s = Some t -> (length t < S (length s))%nat.
Proof.
  revert t; induction s as [|c r IH]; intros t; simpl; [discriminate|].
  destruct (isWhiteSpace c); [|discriminate].
  destruct (afterLastNewline r) as [u|].
  - intros [= <-]. specialize (IH u eq_refl). lia.
  - destruct (isNewline c); [|discriminate]. intros [= <-]. lia.
Qed.

(** Keeps the equation of a [with] scrutinee in the context. *)
Definition inspect {A : Type} (a : A) : {b : A | a = b} :=
  exist _ a eq_refl.

(** [s.replace(/\n\s*\n/g, "\n\n")]: scanning from the left, a LF
    followed by a white-space run that holds another LF is replaced,
    through the last LF of the run, by two LFs; scanning resumes after
    the match. *)
Equations? collapseBlankLines (s : jsstring) : jsstring
  by wf (length s) lt :=
  collapseBlankLines [] := [];
  collapseBlankLines (c :: r) with isNewline c := {
    | false := c :: collapseBlankLines r;
    | true with inspect (afterLastNewline r) := {
        | exist _ (Some t) _ := LF :: LF :: collapseBlankLines t;
        | exist _ None _ := c :: collapseBlankLines r } }.
Proof.
  all: simpl; try lia.
  eapply afterLastNewline_length; eassumption.
Qed.

End JsString.

Import JsString.

(* ===================================================================== *)
(** ** The text chunker and the text cleaner ([lib/text-to-speech.ts]) *)
(* ===================================================================== *)

Module Text.

(** [(s) => s.trim().length > 0] *)
Definition nonBlank (s : jsstring) : bool := nonEmpty (trim s).

(** The [for (const sentence of sentences)] loop of
    [splitTextIntoChunks]; [chunks.push] appends at the end. *)
Fixpoint chunkLoop (maxChunkSize : Z) (sentences : list jsstring)
         (chunks : list jsstring) (currentChunk : jsstring)
  : list jsstring * jsstring :=
  match sentences with
  | [] => (chunks, currentChunk)
  | sentence :: rest =>
      let trimmedSentence := trim sentence in
      if (Z.of_nat (length currentChunk + length trimmedSentence)
            >? maxChunkSize)%Z
         && (0 <? length currentChunk)%nat
      then chunkLoop maxChunkSize rest
             (chunks ++ [trim currentChunk ++ js "."]) trimmedSentence
      else chunkLoop maxChunkSize rest chunks
             (currentChunk
                ++ (if nonEmpty currentChunk then js ". " else js "")
                ++ trimmedSentence)
  end.

(** The [sentences] constant of [splitTextIntoChunks]. *)
Definition sentencesOf (text : jsstring) : list jsstring :=
  filter nonBlank (splitSentences text).

(** The [chunks] array of [splitTextIntoChunks] just before its [return]:
    the loop, then the sealing of the last buffer. *)
Definition sentenceChunks (text : jsstring) (maxChunkSize : Z)
  : list jsstring :=
  let '(chunks, currentChunk) :=
    chunkLoop maxChunkSize (sentencesOf text) [] [] in
  if nonEmpty (trim currentChunk)
  then chunks ++ [trim currentChunk
                    ++ (if endsWith currentChunk (js ".")
                        then js "" else js ".")]
  else chunks.

(** [maxChunkSize] is a JavaScript number that is only compared with a sum
    of two lengths; an integer stands for it. *)
Definition splitTextIntoChunks (text : jsstring) (maxChunkSize : Z)
  : list jsstring :=
  let chunks := sentenceChunks text maxChunkSize in
  if (0 <? length chunks)%nat then chunks else [text].

Definition defaultMaxChunkSize : Z := 300.

Definition cleanExtractedText (text : jsstring) : jsstring :=
  trim (collapseBlankLines (collapseWhiteSpace text)).

End Text.

Import Text.

(* ===================================================================== *)
(** ** The speech engine wrapper ([class TextToSpeechEngine]) *)
(* ===================================================================== *)

Module Engine.

Record SpeechSynthesisVoice := {
  voiceURI : jsstring;
  name : jsstring;
  lang : jsstring;
  localService : bool }.

(** [interface TTSOptions]; [None] is [undefined].  The numbers are only
    handed over to the synthesizer; rationals stand for them. *)
Record TTSOptions := {
  voice : option SpeechSynthesisVoice;
  rate : option Q;
  pitch : option Q;
  volume : option Q }.

Record SpeechSynthesisUtterance := {
  utteranceText : jsstring;
  utteranceVoice : option SpeechSynthesisVoice;
  utteranceRate : Q;
  utterancePitch : Q;
  utteranceVolume : Q }.

(** [new SpeechSynthesisUtterance(text)], with the platform's defaults. *)
Definition newUtterance (text : jsstring) : SpeechSynthesisUtterance :=
  {| utteranceText := text; utteranceVoice := None;
     utteranceRate := 1; utterancePitch := 1; utteranceVolume := 1 |}.

Definition orElse {A : Type} (o : option A) (d : A) : A :=
  match o with Some a => a | None => d end.

(** The four [if (options.x ...)] assignments of [speak]. *)
Definition applyOptions (options : TTSOptions) (u : SpeechSynthesisUtterance)
  : SpeechSynthesisUtterance :=
  {| utteranceText := utteranceText u;
     utteranceVoice :=
       match voice options with Some v => Some v | None => utteranceVoice u end;
     utteranceRate := orElse (rate options) (utteranceRate u);
     utterancePitch := orElse (pitch options) (utterancePitch u);
     utteranceVolume := orElse (volume options) (utteranceVolume u) |}.

(** The calls the wrapper makes on [window.speechSynthesis]. *)
Inductive SynthesisCall :=
| Cancel
| Pause
| Resume
| Speak (u : SpeechSynthesisUtterance).

(** The promise [speak] returns.  [resolve] and [reject] act on a pending
    promise only. *)
Inductive Promise :=
| Pending
| Resolved
| Rejected (message : jsstring).

Definition resolve (p : Promise) : Promise :=
  match p with Pending => Resolved | _ => p end.

Definition reject (message : jsstring) (p : Promise) : Promise :=
  match p with Pending => Rejected message | _ => p end.

(** The private fields of the class ([synthesis] is the global below). *)
Record TextToSpeechEngine := {
  currentUtterance : option SpeechSynthesisUtterance;
  isPlaying : bool;
  isPaused : bool }.

(** The freshly constructed object. *)
Definition newEngine : TextToSpeechEngine :=
  {| currentUtterance := None; isPlaying := false; isPaused := false |}.

(** What the methods and callbacks act upon: the object, the calls made
    on the synthesizer so far (oldest first) and the promises created by
    [speak], a promise being named by its position. *)
Record World := {
  this : TextToSpeechEngine;
  synthesis : list SynthesisCall;
  promises : list Promise }.

Definition newWorld : World :=
  {| this := newEngine; synthesis := []; promises := [] |}.

(** *** A state monad over [World] *)

Definition M (A : Type) : Type := World -> A * World.

Definition ret {A : Type} (a : A) : M A := fun w => (a, w).

Definition bind {A B : Type} (m : M A) (k : A -> M B) : M B :=
  fun w => let (a, w') := m w in k a w'.

Notation "x <- m ;; k" := (bind m (fun x => k))
  (at level 61, m at next level, right associativity).
Notation "m ;; k" := (bind m (fun _ => k))
  (at level 61, right associativity).

Definition exec {A : Type} (m : M A) (w : World) : World := snd (m w).

Definition getThis : M TextToSpeechEngine := fun w => (this w, w).

Definition modifyThis (f : TextToSpeechEngine -> TextToSpeechEngine) : M unit :=
  fun w => (tt, {| this := f (this w); synthesis := synthesis w;
                   promises := promises w |}).

Definition setIsPlaying (b : bool) : M unit :=
  modifyThis (fun e => {| currentUtterance := currentUtterance e;
                          isPlaying := b; isPaused := isPaused e |}).

Definition setIsPaused (b : bool) : M unit :=
  modifyThis (fun e => {| currentUtterance := currentUtterance e;
                          isPlaying := isPlaying e; isPaused := b |}).

Definition setCurrentUtterance (u : option SpeechSynthesisUtterance) : M unit :=
  modifyThis (fun e => {| currentUtterance := u;
                          isPlaying := isPlaying e; isPaused := isPaused e |}).

Definition callSynthesis (c : SynthesisCall) : M unit :=
  fun w => (tt, {| this := this w; synthesis := synthesis w ++ [c];
                   promises := promises w |}).

(** [new Promise(...)]: a pending promise, named by its position. *)
Definition newPromise : M nat :=
  fun w => (length (promises w),
            {| this := this w; synthesis := synthesis w;
               promises := promises w ++ [Pending] |}).

Fixpoint updateAt (f : Promise -> Promise) (n : nat) (l : list Promise)
  : list Promise :=
  match l, n with
  | [], _ => []
  | p :: r, O => f p :: r
  | p :: r, S n' => p :: updateAt f n' r
  end.

(** A call of the [resolve] or [reject] function of promise [pid]. *)
Definition settle (pid : nat) (f : Promise -> Promise) : M unit :=
  fun w => (tt, {| this := this w; synthesis := synthesis w;
                   promises := updateAt f pid (promises w) |}).

Definition promiseState (w : World) (pid : nat) : option Promise :=
  nth_error (promises w) pid.

(** *** The methods *)

Definition stop : M unit :=
  callSynthesis Cancel ;;
  setIsPlaying false ;;
  setIsPaused false ;;
  setCurrentUtterance None.

Definition pause : M unit :=
  e <- getThis ;;
  if isPlaying e && negb (isPaused e)
  then callSynthesis Pause ;; setIsPaused true
  else ret tt.

Definition resume : M unit :=
  e <- getThis ;;
  if isPaused e
  then callSynthesis Resume ;; setIsPaused false
  else ret tt.

Definition getPlaybackState : M (bool * bool) :=
  e <- getThis ;; ret (isPlaying e, isPaused e).

(** *** [speak]

    The executor of the promise runs at the call; the body of its
    [setTimeout] runs 50 ms later; the three handlers it installs on the
    utterance run when the synthesizer fires the event. *)

Definition speakExecutor : M nat :=
  pid <- newPromise ;;
  e <- getThis ;;
  (if isPlaying e then stop else ret tt) ;;
  ret pid.

Definition speakTimeout (text : jsstring) (options : TTSOptions) : M unit :=
  let u := applyOptions options (newUtterance text) in
  setCurrentUtterance (Some u) ;;
  callSynthesis (Speak u).

Definition onstart : M unit :=
  setIsPlaying true ;;
  setIsPaused false.

Definition onend (pid : nat) : M unit :=
  setIsPlaying false ;;
  setIsPaused false ;;
  setCurrentUtterance None ;;
  settle pid resolve.

Definition errorMessage (error : jsstring) : jsstring :=
  js "Speech synthesis error: " ++ error.

Definition onerror (pid : nat) (error : jsstring) : M unit :=
  setIsPlaying false ;;
  setIsPaused false ;;
  setCurrentUtterance None ;;
  if JsString.eqb error (js "canceled")
  then settle pid resolve
  else settle pid (reject (errorMessage error)).

(** *** The wrapper as a state machine

    Everything that can happen to the object: a call of a method, the
    timer of a [speak] call, an event of an utterance.  Timers and events
    are not tied to earlier calls here, so the runs of the source are
    among the runs of this machine. *)

Inductive Action :=
| CallSpeak
| FireTimeout (text : jsstring) (options : TTSOptions)
| FireStart
| FireEnd (pid : nat)
| FireError (pid : nat) (error : jsstring)
| CallPause
| CallResume
| CallStop.

Definition step (w : World) (a : Action) : World :=
  match a with
  | CallSpeak => exec speakExecutor w
  | FireTimeout text options => exec (speakTimeout text options) w
  | FireStart => exec onstart w
  | FireEnd pid => exec (onend pid) w
  | FireError pid error => exec (onerror pid error) w
  | CallPause => exec pause w
  | CallResume => exec resume w
  | CallStop => exec stop w
  end.

Definition run (actions : list Action) (w : World) : World :=
  fold_left step actions w.

(** *** The states of the specification *)

Inductive PlaybackState := Idle | Speaking | Paused.

(** [Idle] is "not playing"; the fourth combination of the two flags,
    paused and not playing, is the one the invariant excludes. *)
Definition playbackState (e : TextToSpeechEngine) : option PlaybackState :=
  match isPlaying e, isPaused e with
  | false, false => Some Idle
  | true, false => Some Speaking
  | true, true => Some Paused
  | false, true => None
  end.

(** *** One utterance from call to settlement

    How the synthesizer ends an utterance it was given. *)
Inductive Outcome :=
| Finishes
| Fails (error : jsstring)
| Stalls.

(** [await ttsEngine.speak(text, options)] when nothing else happens in
    between: the executor, the timer, the start of the utterance, then
    its end or its error.  Returns the promise as the awaiting caller
    finds it. *)
Definition speakAndSettle (text : jsstring) (options : TTSOptions)
           (outcome : Outcome) : M Promise :=
  pid <- speakExecutor ;;
  speakTimeout text options ;;
  onstart ;;
  match outcome with
  | Finishes => onend pid
  | Fails error => onerror pid error
  | Stalls => ret tt
  end ;;
  fun w => (orElse (promiseState w pid) Pending, w).

End Engine.

(* ===================================================================== *)
(** ** The playback sequencer ([components/tts-controls.tsx]) *)
(* ===================================================================== *)

Module Controls.

(** The [useState] cells of [TTSControls] that the playback handlers read
    or write.  A value of this type is also what a handler closure has
    captured: a handler made by [useCallback] reads the cells as they were
    at the render that made it, whatever is set afterwards. *)
Record State := {
  selectedVoice : option Engine.SpeechSynthesisVoice;
  rate : Q;
  pitch : Q;
  volume : Q;
  isPlaying : bool;
  isPaused : bool;
  currentChunk : Z;
  textChunks : list jsstring }.

(** The initial values of the cells. *)
Definition initialState : State :=
  {| selectedVoice := None; rate := 1; pitch := 1; volume := 8 # 10;
     isPlaying := false; isPaused := false;
     currentChunk := 0; textChunks := [] |}.

(** What a handler leaves behind besides the cells and the engine. *)
Inductive Effect :=
| ConsoleWarn (chunk : Z) (message : jsstring)
| Toast (title : jsstring)
| Sleep (ms : Z)
| RestartPlay (ms : Z) (captured : State).

(** The component with its engine ([ttsEngine] is one object for the life
    of the component). *)
Record Page := {
  view : State;
  engine : Engine.World;
  effects : list Effect }.

Definition initialPage : Page :=
  {| view := initialState; engine := Engine.newWorld; effects := [] |}.

Definition modifyView (f : State -> State) (p : Page) : Page :=
  {| view := f (view p); engine := engine p; effects := effects p |}.

Definition setSelectedVoice (v : option Engine.SpeechSynthesisVoice) : Page -> Page :=
  modifyView (fun s =>
    {| selectedVoice := v; rate := rate s; pitch := pitch s;
       volume := volume s; isPlaying := isPlaying s; isPaused := isPaused s;
       currentChunk := currentChunk s; textChunks := textChunks s |}).

Definition setIsPlaying (b : bool) : Page -> Page :=
  modifyView (fun s =>
    {| selectedVoice := selectedVoice s; rate := rate s; pitch := pitch s;
       volume := volume s; isPlaying := b; isPaused := isPaused s;
       currentChunk := currentChunk s; textChunks := textChunks s |}).

Definition setIsPaused (b : bool) : Page -> Page :=
  modifyView (fun s =>
    {| selectedVoice := selectedVoice s; rate := rate s; pitch := pitch s;
       volume := volume s; isPlaying := isPlaying s; isPaused := b;
       currentChunk := currentChunk s; textChunks := textChunks s |}).

Definition setCurrentChunk (i : Z) : Page -> Page :=
  modifyView (fun s =>
    {| selectedVoice := selectedVoice s; rate := rate s; pitch := pitch s;
       volume := volume s; isPlaying := isPlaying s; isPaused := isPaused s;
       currentChunk := i; textChunks := textChunks s |}).

Definition setTextChunks (chunks : list jsstring) : Page -> Page :=
  modifyView (fun s =>
    {| selectedVoice := selectedVoice s; rate := rate s; pitch := pitch s;
       volume := volume s; isPlaying := isPlaying s; isPaused := isPaused s;
       currentChunk := currentChunk s; textChunks := chunks |}).

Definition effect (e : Effect) (p : Page) : Page :=
  {| view := view p; engine := engine p; effects := effects p ++ [e] |}.

(** A method of [ttsEngine] called for its effect. *)
Definition onEngine {A : Type} (m : Engine.M A) (p : Page) : Page :=
  {| view := view p; engine := Engine.exec m (engine p); effects := effects p |}.

(** The effect hook on [text]: a truthy text is chunked with the default
    size and the index returns to 0. *)
Definition loadText (text : jsstring) (p : Page) : Page :=
  if nonEmpty text
  then setCurrentChunk 0
         (setTextChunks (splitTextIntoChunks text defaultMaxChunkSize) p)
  else p.

(** [textChunks.length - 1], a number that is -1 for an empty array. *)
Definition lastIndex (c : State) : Z := Z.of_nat (length (textChunks c)) - 1.

(** [textChunks[i]] for an index inside the array, as in the loop. *)
Definition chunkAt (c : State) (i : Z) : jsstring :=
  nth (Z.to_nat i) (textChunks c) [].

Definition speakOptions (voice : Engine.SpeechSynthesisVoice) (c : State)
  : Engine.TTSOptions :=
  {| Engine.voice := Some voice; Engine.rate := Some (rate c);
     Engine.pitch := Some (pitch c); Engine.volume := Some (volume c) |}.

(** How the body of the loop of [handlePlay] is left. *)
Inductive Iteration :=
| NextChunk (p : Page)   (* [continue], or the end of the body *)
| Suspended (p : Page).  (* the awaited promise never settles *)

(** The body of the loop after the stop check, for index [i]: the cell is
    set, the chunk is spoken and awaited; a rejection is logged and the
    pause between chunks is skipped.  [outcomes] tells how the synthesizer
    ends the utterance of each index. *)
Definition playChunk (c : State) (voice : Engine.SpeechSynthesisVoice)
           (outcomes : Z -> Engine.Outcome) (i : Z) (p : Page) : Iteration :=
  let p1 := setCurrentChunk i p in
  let (promise, w) :=
    Engine.speakAndSettle (chunkAt c i) (speakOptions voice c) (outcomes i)
      (engine p1) in
  let p2 := {| view := view p1; engine := w; effects := effects p1 |} in
  match promise with
  | Engine.Resolved => NextChunk (effect (Sleep 100) p2)
  | Engine.Rejected message => NextChunk (effect (ConsoleWarn i message) p2)
  | Engine.Pending => Suspended p2
  end.

(** [for (let i = ...; i < textChunks.length; i++)], entered at index [i].
    [c] holds the captured cells: the test [if (!isPlaying) break] reads
    the captured [isPlaying]. *)
Equations? playLoop (c : State) (voice : Engine.SpeechSynthesisVoice)
           (outcomes : Z -> Engine.Outcome) (i : Z) (p : Page) : Iteration
  by wf (Z.to_nat (Z.of_nat (length (textChunks c)) - i)) lt :=
  playLoop c voice outcomes i p
    with Z_lt_dec i (Z.of_nat (length (textChunks c))) := {
    | right _ := NextChunk p;
    | left _ with isPlaying c := {
        | false := NextChunk p;
        | true with playChunk c voice outcomes i p := {
            | NextChunk p' := playLoop c voice outcomes (i + 1) p';
            | Suspended p' := Suspended p' } } }.
Proof. lia. Qed.

(** [handlePlay], made at a render with cells [c] and prop [text].  The
    rejection of [speak] is caught inside the loop and nothing else in the
    body throws, so the outer [catch] has no run here. *)
Definition handlePlay (text : jsstring) (c : State)
           (outcomes : Z -> Engine.Outcome) (p : Page) : Page :=
  match selectedVoice c with
  | None => p
  | Some voice =>
      if negb (nonEmpty text) then p
      else
        let p1 := setIsPaused false (setIsPlaying true p) in
        match playLoop c voice outcomes (currentChunk c) p1 with
        | Suspended p2 => p2
        | NextChunk p2 =>
            let p3 :=
              if (currentChunk c >=? lastIndex c)%Z
              then setCurrentChunk 0 p2 else p2 in
            effect (Toast (js "Playback completed")) (setIsPlaying false p3)
        end
  end.

Definition handlePause (p : Page) : Page :=
  setIsPaused true (onEngine Engine.pause p).

Definition handleResume (p : Page) : Page :=
  setIsPaused false (onEngine Engine.resume p).

Definition handleStop (p : Page) : Page :=
  setCurrentChunk 0 (setIsPaused false (setIsPlaying false
    (onEngine Engine.stop p))).

(** [handlePrevious] and [handleNext], made at a render with cells [c].
    The restart runs the [handlePlay] of that same render, 100 ms
    later. *)
Definition handlePrevious (c : State) (p : Page) : Page :=
  if (currentChunk c >? 0)%Z
  then
    let p1 := setCurrentChunk (currentChunk c - 1) p in
    if isPlaying c
    then effect (RestartPlay 100 c) (onEngine Engine.stop p1)
    else p1
  else p.

Definition handleNext (c : State) (p : Page) : Page :=
  if (currentChunk c <? lastIndex c)%Z
  then
    let p1 := setCurrentChunk (currentChunk c + 1) p in
    if isPlaying c
    then effect (RestartPlay 100 c) (onEngine Engine.stop p1)
    else p1
  else p.

(** The controls as the user finds them: after a render the handlers
    handed to the player have captured the cells of the page. *)
Definition play (text : jsstring) (outcomes : Z -> Engine.Outcome)
           (p : Page) : Page :=
  if isPaused (view p) then handleResume p
  else handlePlay text (view p) outcomes p.

Definition previous (p : Page) : Page := handlePrevious (view p) p.

Definition next (p : Page) : Page := handleNext (view p) p.

(** The texts handed to the synthesizer so far, oldest first. *)
Definition spokenTexts (p : Page) : list jsstring :=
  flat_map (fun call =>
              match call with
              | Engine.Speak u => [Engine.utteranceText u]
              | _ => []
              end)
           (Engine.synthesis (engine p)).

End Controls.

(* ===================================================================== *)
(** ** Reading time, preview, voices and extraction
       ([lib/text-to-speech.ts], [lib/text-extraction.ts]) *)
(* ===================================================================== *)

Module TextUtils.

(** [s.split(re)] for a regular expression [re] that matches the maximal
    runs of the code units in [isSep] ([/\s+/] is one): the pieces between
    the runs, read as [splitFrom] reads them. *)
Fixpoint splitOnFrom (isSep : char -> bool) (piece : jsstring) (inRun : bool)
         (s : jsstring) : list jsstring :=
  match s with
  | [] => [rev piece]
  | c :: r =>
      if isSep c
      then if inRun then splitOnFrom isSep [] true r
           else rev piece :: splitOnFrom isSep [] true r
      else splitOnFrom isSep (c :: piece) false r
  end.

(** [text.trim().split(/\s+/)] *)
Definition wordsOf (text : jsstring) : list jsstring :=
  splitOnFrom isWhiteSpace [] false (trim text).

(** [Math.ceil(words / wordsPerMinute)] for a positive integer
    [wordsPerMinute] (the only caller passes none and gets 150): the
    quotient of two integers of that size is rounded by [Math.ceil] to the
    ceiling of the exact quotient. *)
Definition estimateReadingTime (text : jsstring) (wordsPerMinute : Z) : Z :=
  let words := Z.of_nat (length (wordsOf text)) in
  (words + wordsPerMinute - 1) / wordsPerMinute.

Definition defaultWordsPerMinute : Z := 150.

(** [text.substring(0, maxLength)]: a negative end counts as 0 and one
    beyond the length as the length. *)
Definition substringTo (text : jsstring) (maxLength : Z) : jsstring :=
  firstn (Z.to_nat maxLength) text.

Definition getTextPreview (text : jsstring) (maxLength : Z) : jsstring :=
  if (Z.of_nat (length text) <=? maxLength)%Z then text
  else substringTo text maxLength ++ js "...".

Definition defaultPreviewLength : Z := 200.

End TextUtils.

Module Voices.
Import Engine.

(** [voice.lang.startsWith("en")] *)
Definition isEnglish (v : SpeechSynthesisVoice) : bool :=
  startsWith (lang v) (js "en").

Definition getPreferredVoices (voices : list SpeechSynthesisVoice)
  : list SpeechSynthesisVoice :=
  let localVoices := filter localService voices in
  let englishVoices := filter isEnglish voices in
  if (0 <? length localVoices)%nat
  then filter isEnglish localVoices
         ++ filter (fun v => negb (isEnglish v)) localVoices
  else if (0 <? length englishVoices)%nat then englishVoices else voices.

(** The alternatives of [/^(Microsoft|Google|Apple)\s+/], in their order. *)
Definition vendors : list jsstring :=
  [js "Microsoft"; js "Google"; js "Apple"].

(** [name.replace(/^(Microsoft|Google|Apple)\s+/, "")]: the first
    alternative that starts the name and is followed by white space is
    removed together with all the white space that follows it. *)
Fixpoint stripVendor (alternatives : list jsstring) (name : jsstring)
  : jsstring :=
  match alternatives with
  | [] => name
  | vendor :: others =>
      let rest := skipn (length vendor) name in
      if startsWith name vendor
         && match rest with c :: _ => isWhiteSpace c | [] => false end
      then trimStart rest
      else stripVendor others name
  end.

Definition formatVoiceName (v : SpeechSynthesisVoice) : jsstring :=
  let shown := stripVendor vendors (name v) in
  if negb (isEnglish v)
  then shown ++ js " (" ++ lang v ++ js ")"
  else shown.

End Voices.

Module Extraction.

(** What the dispatcher reads of a [File]. *)
Record File := {
  fileName : jsstring;
  fileType : jsstring;
  fileSize : Z }.

(** An awaited promise of a string: fulfilled with a text or rejected with
    an [Error] of some message. *)
Inductive Extracted :=
| Text (text : jsstring)
| Failure (message : jsstring).

Section Dispatcher.

(** The three readers, which hand the file to the platform's [FileReader]
    and to the PDF and DOCX libraries: what each of them settles with for a
    file is given from outside. *)
Variable extractTextFromTxt : File -> Extracted.
Variable extractTextFromPdf : File -> Extracted.
Variable extractTextFromDocx : File -> Extracted.

(** The [try] block of [extractTextFromFile]. *)
Definition extractByType (file : File) : Extracted :=
  if JsString.eqb (fileType file) (js "text/plain")
  then extractTextFromTxt file
  else if JsString.eqb (fileType file) (js "application/pdf")
  then extractTextFromPdf file
  else if JsString.eqb (fileType file)
            (js "application/vnd.openxmlformats-officedocument.wordprocessingml.document")
          || JsString.eqb (fileType file) (js "application/msword")
  then extractTextFromDocx file
  else Failure (js "Unsupported file type").

(** [extractTextFromFile]: whatever is thrown in the [try] block is logged
    and replaced. *)
Definition extractTextFromFile (file : File) : Extracted :=
  match extractByType file with
  | Text text => Text text
  | Failure _ => Failure (js "Failed to extract text from file")
  end.

End Dispatcher.

End Extraction.

(* ===================================================================== *)
(** ** The player's volume controls ([AudioPlayer]) *)
(* ===================================================================== *)

Module Player.
Import Controls.

(** [setVolume([newVolume])] of [TTSControls], which the player receives as
    [onVolumeChange]; the settings panel calls it as well. *)
Definition setVolume (v : Q) : Page -> Page :=
  modifyView (fun s =>
    {| selectedVoice := selectedVoice s; rate := rate s; pitch := pitch s;
       volume := v; isPlaying := isPlaying s; isPaused := isPaused s;
       currentChunk := currentChunk s; textChunks := textChunks s |}).

(** The [useState] cells of [AudioPlayer]. *)
Record Cells := {
  isMuted : bool;
  previousVolume : Q;
  showVolumeSlider : bool }.

(** The player mounted on a page: [previousVolume] starts as the [volume]
    prop. *)
Record Screen := {
  page : Page;
  cells : Cells }.

Definition mount (p : Page) : Screen :=
  {| page := p;
     cells := {| isMuted := false; previousVolume := volume (view p);
                 showVolumeSlider := false |} |}.

Definition onVolumeChange (v : Q) (s : Screen) : Screen :=
  {| page := setVolume v (page s); cells := cells s |}.

Definition setIsMuted (b : bool) (s : Screen) : Screen :=
  {| page := page s;
     cells := {| isMuted := b; previousVolume := previousVolume (cells s);
                 showVolumeSlider := showVolumeSlider (cells s) |} |}.

Definition setPreviousVolume (v : Q) (s : Screen) : Screen :=
  {| page := page s;
     cells := {| isMuted := isMuted (cells s); previousVolume := v;
                 showVolumeSlider := showVolumeSlider (cells s) |} |}.

Definition setShowVolumeSlider (b : bool) (s : Screen) : Screen :=
  {| page := page s;
     cells := {| isMuted := isMuted (cells s);
                 previousVolume := previousVolume (cells s);
                 showVolumeSlider := b |} |}.

(** [toggleMute], made at a render with cells [c] and [volume] prop
    [v]. *)
Definition toggleMute (c : Cells) (v : Q) (s : Screen) : Screen :=
  if isMuted c
  then onVolumeChange (previousVolume c) (setIsMuted false s)
  else onVolumeChange 0 (setIsMuted true (setPreviousVolume v s)).

(** [vol === 0] on numbers. *)
Definition isZero (v : Q) : bool := Qeq_bool v 0.

(** The player's [handleVolumeChange]; the timer that hides the slider two
    seconds later is left out. *)
Definition handleVolumeChange (newVolume : Q) (s : Screen) : Screen :=
  setShowVolumeSlider true
    (setIsMuted (isZero newVolume) (onVolumeChange newVolume s)).

(** The mute button and the M key, after a render. *)
Definition mute (s : Screen) : Screen :=
  toggleMute (cells s) (volume (view (page s))) s.

End Player.

(* ===================================================================== *)
(** ** The page in use *)
(* ===================================================================== *)

Module Session.
Import Controls.

Definition setRate (v : Q) : Page -> Page :=
  modifyView (fun s =>
    {| selectedVoice := selectedVoice s; rate := v; pitch := pitch s;
       volume := volume s; isPlaying := isPlaying s; isPaused := isPaused s;
       currentChunk := currentChunk s; textChunks := textChunks s |}).

Definition setPitch (v : Q) : Page -> Page :=
  modifyView (fun s =>
    {| selectedVoice := selectedVoice s; rate := rate s; pitch := v;
       volume := volume s; isPlaying := isPlaying s; isPaused := isPaused s;
       currentChunk := currentChunk s; textChunks := textChunks s |}).

(** What happens to a mounted [TTSControls]: the voices arrive or the user
    picks one, a slider moves, a button of the player is pressed (or its
    keyboard shortcut), the [text] prop changes.  Each press is handled by
    the handlers of the latest render, which have captured the cells of the
    page as they are. *)
Inductive Press :=
| ChooseVoice (v : option Engine.SpeechSynthesisVoice)
| MoveRate (v : Q)
| MovePitch (v : Q)
| MoveVolume (v : Q)
| PressPlay (outcomes : Z -> Engine.Outcome)
| PressPause
| PressStop
| PressPrevious
| PressNext
| NewText (text' : jsstring).

(** One step; [text] is the prop of the latest render. *)
Definition press (tp : jsstring * Page) (a : Press) : jsstring * Page :=
  let (text, p) := tp in
  match a with
  | ChooseVoice v => (text, setSelectedVoice v p)
  | MoveRate v => (text, setRate v p)
  | MovePitch v => (text, setPitch v p)
  | MoveVolume v => (text, Player.setVolume v p)
  | PressPlay outcomes => (text, play text outcomes p)
  | PressPause => (text, handlePause p)
  | PressStop => (text, handleStop p)
  | PressPrevious => (text, previous p)
  | PressNext => (text, next p)
  | NewText text' => (text', loadText text' p)
  end.

(** The page after a sequence of presses, mounted with prop [text]: the
    effect hook on [text] has run once at the mount. *)
Definition session (text : jsstring) (actions : list Press) : jsstring * Page :=
  fold_left press actions (text, loadText text initialPage).

End Session.

(* ===================================================================== *)
(** ** The upload list ([components/file-upload.tsx]) *)
(* ===================================================================== *)

Module Upload.
Import Extraction.

Inductive Status := Uploading | Processing | Completed | Errored.

(** [interface UploadedFile]; [None] is an absent field. *)
Record UploadedFile := {
  file : File;
  id : jsstring;
  status : Status;
  progress : Z;
  extractedText : option jsstring;
  error : option jsstring }.

(** A [Set<string>]: its elements in insertion order, each once. *)
Definition StringSet := list jsstring.

Definition setHas (s : StringSet) (x : jsstring) : bool :=
  existsb (fun y => JsString.eqb y x) s.

Definition setAdd (s : StringSet) (x : jsstring) : StringSet :=
  if setHas s x then s else s ++ [x].

Definition setDelete (s : StringSet) (x : jsstring) : StringSet :=
  filter (fun y => negb (JsString.eqb y x)) s.

(** The cells of [FileUpload]. *)
Record State := {
  uploadedFiles : list UploadedFile;
  expandedFiles : StringSet;
  selectedFileForTTS : option UploadedFile }.

Definition initialState : State :=
  {| uploadedFiles := []; expandedFiles := []; selectedFileForTTS := None |}.

(** [setUploadedFiles((prev) => f(prev))] *)
Definition updateFiles (f : list UploadedFile -> list UploadedFile) (s : State)
  : State :=
  {| uploadedFiles := f (uploadedFiles s);
     expandedFiles := expandedFiles s;
     selectedFileForTTS := selectedFileForTTS s |}.

(** [prev.map((f) => (f.id === fileId ? change(f) : f))] *)
Definition updateById (fileId : jsstring) (change : UploadedFile -> UploadedFile)
  : State -> State :=
  updateFiles (map (fun f => if JsString.eqb (id f) fileId then change f else f)).

(** The rows [onDrop] appends, the identifiers drawn at random being
    given. *)
Definition newRow (idAndFile : jsstring * File) : UploadedFile :=
  {| file := snd idAndFile; id := fst idAndFile; status := Uploading;
     progress := 0; extractedText := None; error := None |}.

Definition appendRows (dropped : list (jsstring * File)) : State -> State :=
  updateFiles (fun prev => prev ++ map newRow dropped).

Definition markProcessing (f : UploadedFile) : UploadedFile :=
  {| file := file f; id := id f; status := Processing; progress := 25;
     extractedText := extractedText f; error := error f |}.

Definition markProgress (f : UploadedFile) : UploadedFile :=
  {| file := file f; id := id f; status := status f; progress := 75;
     extractedText := extractedText f; error := error f |}.

Definition markCompleted (cleanedText : jsstring) (f : UploadedFile)
  : UploadedFile :=
  {| file := file f; id := id f; status := Completed; progress := 100;
     extractedText := Some cleanedText; error := error f |}.

Definition markError (message : jsstring) (f : UploadedFile) : UploadedFile :=
  {| file := file f; id := id f; status := Errored; progress := 0;
     extractedText := extractedText f; error := Some message |}.

(** How the two awaited calls on the database client end: a user or none,
    with the insertion failing or not (which is only logged), or something
    thrown, an [Error] with its message or another value. *)
Inductive Backend :=
| SignedIn (insertFails : bool)
| SignedOut
| Throws (message : option jsstring).

(** [error instanceof Error ? error.message : "Unknown error"] *)
Definition caughtMessage (thrown : option jsstring) : jsstring :=
  match thrown with Some message => message | None => js "Unknown error" end.

Section ProcessFile.

Variable extractTextFromTxt : File -> Extracted.
Variable extractTextFromPdf : File -> Extracted.
Variable extractTextFromDocx : File -> Extracted.

(** [processFile], run to its last state update (the one in the 500 ms
    timer), nothing else happening to the list in between. *)
Definition processFile (backend : Backend) (fileId : jsstring) (f : File)
           (s : State) : State :=
  let s1 := updateById fileId markProcessing s in
  match extractTextFromFile extractTextFromTxt extractTextFromPdf
          extractTextFromDocx f with
  | Failure message => updateById fileId (markError message) s1
  | Text rawText =>
      let cleanedText := cleanExtractedText rawText in
      let s2 := updateById fileId markProgress s1 in
      match backend with
      | Throws thrown => updateById fileId (markError (caughtMessage thrown)) s2
      | SignedIn _ | SignedOut => updateById fileId (markCompleted cleanedText) s2
      end
  end.

End ProcessFile.

(** [removeFile], with the cells of the latest render. *)
Definition removeFile (fileId : jsstring) (s : State) : State :=
  {| uploadedFiles :=
       filter (fun f => negb (JsString.eqb (id f) fileId)) (uploadedFiles s);
     expandedFiles := setDelete (expandedFiles s) fileId;
     selectedFileForTTS :=
       match selectedFileForTTS s with
       | Some f => if JsString.eqb (id f) fileId then None else Some f
       | None => None
       end |}.

Definition toggleTextExpansion (fileId : jsstring) (s : State) : State :=
  {| uploadedFiles := uploadedFiles s;
     expandedFiles :=
       if setHas (expandedFiles s) fileId
       then setDelete (expandedFiles s) fileId
       else setAdd (expandedFiles s) fileId;
     selectedFileForTTS := selectedFileForTTS s |}.

Definition selectFileForTTS (f : UploadedFile) (s : State) : State :=
  {| uploadedFiles := uploadedFiles s;
     expandedFiles := expandedFiles s;
     selectedFileForTTS := Some f |}.

(** The [text] prop with which [TTSControls] is rendered, if it is: the
    selected file must hold a truthy text. *)
Definition ttsText (s : State) : option jsstring :=
  match selectedFileForTTS s with
  | Some f =>
      match extractedText f with
      | Some text => if nonEmpty text then Some text else None
      | None => None
      end
  | None => None
  end.

End Upload.

(* ===================================================================== *)
(** ** Facts about [trim] and the regular-expression replacements *)
(* ===================================================================== *)

Module TrimFacts.

(** The first code unit, if any, is not white space. *)
Definition headOk (s : jsstring) : Prop :=
  match s with [] => True | c :: _ => isWhiteSpace c = false end.

Definition allWhite (s : jsstring) : Prop :=
  Forall (fun c => isWhiteSpace c = true) s.

Lemma trimStart_headOk s : headOk (trimStart s).
Proof.
  induction s as [|c r IH]; simpl; [exact I|].
  destruct (isWhiteSpace c) eqn:E; [exact IH | exact E].
Qed.

Lemma trimStart_id s : headOk s -> trimStart s = s.
Proof. destruct s as [|c r]; simpl; [reflexivity|]. intros ->. reflexivity. Qed.

Lemma trimEnd_headOk s : headOk s -> headOk (trimEnd s).
Proof.
  destruct s as [|c r]; simpl; [trivial|]. intros E.
  destruct (trimEnd r); rewrite ?E; exact E.
Qed.

Lemma trimEnd_idem s : trimEnd (trimEnd s) = trimEnd s.
Proof.
  induction s as [|c r IH]; simpl; [reflexivity|].
  destruct (trimEnd r) as [|d r'] eqn:E.
  - destruct (isWhiteSpace c) eqn:W; simpl; rewrite ?W; reflexivity.
  - change (trimEnd (c :: d :: r')) with
      (match trimEnd (d :: r') with
       | [] => if isWhiteSpace c then [] else [c]
       | x => c :: x
       end).
    rewrite IH. reflexivity.
Qed.

Lemma trim_headOk s : headOk (trim s).
Proof. apply trimEnd_headOk, trimStart_headOk. Qed.

Lemma trim_idem s : trim (trim s) = trim s.
Proof.
  unfold trim at 1. rewrite (trimStart_id _ (trim_headOk s)).
  apply trimEnd_idem.
Qed.

Lemma trimEnd_of_trimmed s : trim s = s -> trimEnd s = s.
Proof.
  intros E. rewrite <- E at 1. unfold trim. rewrite trimEnd_idem. exact E.
Qed.

Lemma headOk_of_trimmed s : trim s = s -> headOk s.
Proof. intros <-. apply trim_headOk. Qed.

Lemma trimEnd_app x s : trimEnd s <> [] -> trimEnd (x ++ s) = x ++ trimEnd s.
Proof.
  intros Hs. induction x as [|c x IH]; simpl; [reflexivity|].
  rewrite IH. destruct (x ++ trimEnd s) eqn:E; [|reflexivity].
  apply app_eq_nil in E. tauto.
Qed.

(** Joining two trimmed, non-empty strings around any middle part gives a
    trimmed string. *)
Lemma trim_sandwich a m b :
  trim a = a -> a <> [] -> trim b = b -> b <> [] ->
  trim (a ++ m ++ b) = a ++ m ++ b.
Proof.
  intros Ha Na Hb Nb. unfold trim.
  rewrite trimStart_id.
  - rewrite !app_assoc, trimEnd_app; rewrite (trimEnd_of_trimmed _ Hb); auto.
  - pose proof (headOk_of_trimmed _ Ha). destruct a; [contradiction|assumption].
Qed.

Lemma trimStart_Forall (P : char -> Prop) s :
  Forall P s -> Forall P (trimStart s).
Proof.
  induction 1 as [|c r Hc Hr IH]; simpl; [constructor|].
  destruct (isWhiteSpace c); [exact IH | constructor; assumption].
Qed.

Lemma trimEnd_Forall (P : char -> Prop) s :
  Forall P s -> Forall P (trimEnd s).
Proof.
  induction 1 as [|c r Hc Hr IH]; simpl; [constructor|].
  destruct (trimEnd r).
  - destruct (isWhiteSpace c); constructor; auto.
  - constructor; assumption.
Qed.

Lemma trim_Forall (P : char -> Prop) s : Forall P s -> Forall P (trim s).
Proof. intros H. apply trimEnd_Forall, trimStart_Forall, H. Qed.

Lemma trimStart_nil s : trimStart s = [] <-> allWhite s.
Proof.
  induction s as [|c r IH]; simpl.
  - split; [constructor | reflexivity].
  - destruct (isWhiteSpace c) eqn:E.
    + rewrite IH. split; [constructor; assumption | inversion 1; assumption].
    + split; [discriminate|]. inversion 1. congruence.
Qed.

Lemma trimEnd_nil s : trimEnd s = [] -> headOk s -> s = [].
Proof.
  destruct s as [|c r]; simpl; [reflexivity|]. intros H E. rewrite E in H.
  destruct (trimEnd r); discriminate.
Qed.

(** A string is blank exactly when it holds white space only. *)
Lemma trim_nil s : trim s = [] <-> allWhite s.
Proof.
  rewrite <- trimStart_nil. unfold trim. split.
  - intros H. apply trimEnd_nil; [exact H | apply trimStart_headOk].
  - intros ->. reflexivity.
Qed.

Lemma nonBlank_false s : nonBlank s = false <-> allWhite s.
Proof.
  rewrite <- trim_nil. unfold nonBlank. destruct (trim s); simpl.
  - tauto.
  - split; discriminate.
Qed.

Lemma trim_cons_white c s : isWhiteSpace c = true -> trim (c :: s) = trim s.
Proof. unfold trim. simpl. intros ->. reflexivity. Qed.

End TrimFacts.

Module CleanFacts.
Import TrimFacts.

(** What [collapseWhiteSpace] produces: every white-space code unit is a
    SPACE and no two of them are adjacent.  [inRun] tells that the code
    unit before [s] was white space. *)
Fixpoint normalised (inRun : bool) (s : jsstring) : Prop :=
  match s with
  | [] => True
  | c :: r =>
      if isWhiteSpace c
      then inRun = false /\ c = SPACE /\ normalised true r
      else normalised false r
  end.

Definition noNewline (s : jsstring) : Prop :=
  Forall (fun c => isNewline c = false) s.

Lemma collapseFrom_normalised b s : normalised b (collapseFrom b s).
Proof.
  revert b; induction s as [|c r IH]; intros b; simpl; [exact I|].
  destruct (isWhiteSpace c) eqn:E.
  - destruct b; [apply IH|]. simpl. auto.
  - simpl. rewrite E. apply IH.
Qed.

Lemma collapseFrom_id b s : normalised b s -> collapseFrom b s = s.
Proof.
  revert b; induction s as [|c r IH]; intros b; simpl; [reflexivity|].
  destruct (isWhiteSpace c).
  - intros (-> & -> & H). rewrite (IH _ H). reflexivity.
  - intros H. rewrite (IH _ H). reflexivity.
Qed.

Lemma normalised_noNewline b s : normalised b s -> noNewline s.
Proof.
  revert b; induction s as [|c r IH]; intros b; simpl; [constructor|].
  destruct (isWhiteSpace c) eqn:E.
  - intros (_ & -> & H). constructor; [reflexivity | exact (IH _ H)].
  - intros H. constructor; [|exact (IH _ H)].
    destruct (isNewline c) eqn:N; [|reflexivity].
    apply N.eqb_eq in N. subst c. discriminate.
Qed.

Lemma normalised_head b b' s : headOk s -> normalised b s -> normalised b' s.
Proof. destruct s as [|c r]; simpl; [trivial|]. intros ->. trivial. Qed.

Lemma trimStart_normalised b s : normalised b s -> normalised false (trimStart s).
Proof.
  revert b; induction s as [|c r IH]; intros b; simpl; [trivial|].
  destruct (isWhiteSpace c) eqn:E.
  - intros (_ & _ & H). exact (IH _ H).
  - simpl. rewrite E. trivial.
Qed.

Lemma trimEnd_normalised b s : normalised b s -> normalised b (trimEnd s).
Proof.
  revert b; induction s as [|c r IH]; intros b; simpl; [trivial|].
  destruct (isWhiteSpace c) eqn:E.
  - intros (-> & -> & H). specialize (IH _ H).
    destruct (trimEnd r); simpl; auto.
  - intros H. specialize (IH _ H).
    destruct (trimEnd r); simpl; rewrite E; auto.
Qed.

Lemma trim_normalised b s : normalised b s -> normalised false (trim s).
Proof.
  intros H. apply trimEnd_normalised, (trimStart_normalised _ _ H).
Qed.

(** The second replacement has nothing to match in a text without LF. *)
Lemma collapseBlankLines_id s : noNewline s -> collapseBlankLines s = s.
Proof.
  funelim (collapseBlankLines s); intros Hs; [reflexivity|..].
  all: inversion Hs; subst; try congruence.
  all: f_equal; auto.
Qed.

(** After the first replacement the second one is the identity: every LF
    of the input has already become a SPACE. *)
Lemma clean_is_trim_collapse text :
  cleanExtractedText text = trim (collapseWhiteSpace text).
Proof.
  unfold cleanExtractedText. rewrite collapseBlankLines_id; [reflexivity|].
  apply (normalised_noNewline false), collapseFrom_normalised.
Qed.

Lemma clean_normalised text : normalised false (cleanExtractedText text).
Proof.
  rewrite clean_is_trim_collapse.
  apply (trim_normalised false), collapseFrom_normalised.
Qed.

End CleanFacts.

(* ===================================================================== *)
(** ** Facts about the chunker *)
(* ===================================================================== *)

Module ChunkFacts.
Import TrimFacts.

Definition nonTerm (s : jsstring) : Prop :=
  Forall (fun c => isTerminator c = false) s.

(** What the loop of [splitTextIntoChunks] handles as [trimmedSentence]:
    a non-empty string without terminator and without white space at
    either end. *)
Definition cleanSentence (t : jsstring) : Prop :=
  t <> [] /\ trim t = t /\ nonTerm t.

(** The [else] branch of the loop. *)
Definition appendSentence (currentChunk t : jsstring) : jsstring :=
  currentChunk ++ (if nonEmpty currentChunk then js ". " else js "") ++ t.

(** The buffer that holds the sentences [g]. *)
Definition joinDot (g : list jsstring) : jsstring :=
  fold_left appendSentence g [].

(** A sealed buffer. *)
Definition seal (g : list jsstring) : jsstring := joinDot g ++ js ".".

(** The trimmed sentences of a text, in order: the values
    [trimmedSentence] takes in the loop. *)
Definition trimmedSentences (text : jsstring) : list jsstring :=
  map trim (sentencesOf text).

(** Removes the period a sealed chunk ends with. *)
Definition removePadding (chunk : jsstring) : jsstring :=
  if endsWith chunk (js ".") then removelast chunk else chunk.

(** The sentences read back from a sequence of chunks. *)
Definition recoveredSentences (chunks : list jsstring) : list jsstring :=
  flat_map (fun c => trimmedSentences (removePadding c)) chunks.

(** *** Pieces of a split *)

Lemma splitFrom_nonTerm s : forall piece b,
  nonTerm piece -> Forall nonTerm (splitFrom piece b s).
Proof.
  induction s as [|c r IH]; intros piece b Hp; simpl.
  - constructor; [apply Forall_rev, Hp | constructor].
  - destruct (isTerminator c) eqn:E.
    + destruct b; [apply IH; constructor|].
      constructor; [apply Forall_rev, Hp | apply IH; constructor].
    + apply IH. constructor; assumption.
Qed.

Lemma sentencesOf_spec text raw :
  In raw (sentencesOf text) -> cleanSentence (trim raw).
Proof.
  unfold sentencesOf. rewrite filter_In. intros [Hin Hnb].
  split; [|split].
  - unfold nonBlank in Hnb. destruct (trim raw); [discriminate|discriminate].
  - apply trim_idem.
  - apply trim_Forall.
    pose proof (splitFrom_nonTerm text [] false (Forall_nil _)) as H.
    rewrite Forall_forall in H. apply H, Hin.
Qed.

Lemma trimmedSentences_clean text : Forall cleanSentence (trimmedSentences text).
Proof.
  unfold trimmedSentences. rewrite Forall_map, Forall_forall.
  apply sentencesOf_spec.
Qed.

(** Reading a terminator-free stretch only extends the current piece. *)
Lemma splitFrom_app_nonTerm s : forall piece b rest,
  nonTerm s ->
  splitFrom piece b (s ++ rest)
  = splitFrom (rev s ++ piece) (b && negb (nonEmpty s)) rest.
Proof.
  induction s as [|c r IH]; intros piece b rest Hs; simpl.
  - rewrite andb_true_r. reflexivity.
  - inversion Hs as [|? ? Hc Hr]; subst. rewrite Hc, (IH _ _ _ Hr).
    rewrite <- app_assoc, andb_false_r. reflexivity.
Qed.

(** The pieces of [p ++ ". " ++ t1 ++ ". " ++ t2 ...]. *)
Fixpoint piecesOf (p : jsstring) (r : list jsstring) : list jsstring :=
  match r with
  | [] => [p]
  | t :: r' => p :: piecesOf (SPACE :: t) r'
  end.

Lemma splitFrom_joined r : forall piece,
  Forall nonTerm r ->
  splitFrom piece false (concat (map (fun t => js ". " ++ t) r))
  = piecesOf (rev piece) r.
Proof.
  induction r as [|t r IH]; intros piece Hr; [reflexivity|].
  inversion Hr as [|? ? Ht Hr']; subst.
  cbn [map concat piecesOf].
  change (js ". " ++ t) with (DOT :: SPACE :: t).
  cbn [app splitFrom isTerminator]. simpl (isTerminator DOT).
  simpl (isTerminator SPACE). cbv iota.
  rewrite (splitFrom_app_nonTerm t [SPACE] false _ Ht).
  rewrite IH by assumption. rewrite rev_app_distr, rev_involutive.
  reflexivity.
Qed.

(** *** The buffer *)

Lemma joinDot_snoc g t : joinDot (g ++ [t]) = appendSentence (joinDot g) t.
Proof. unfold joinDot. rewrite fold_left_app. reflexivity. Qed.

Lemma appendSentence_nonEmpty cur t : t <> [] -> appendSentence cur t <> [].
Proof.
  unfold appendSentence. intros Ht E.
  apply app_eq_nil in E as [_ E]. apply app_eq_nil in E as [_ E]. auto.
Qed.

Lemma fold_append_cons r : forall s,
  s <> [] ->
  fold_left appendSentence r s = s ++ concat (map (fun t => js ". " ++ t) r).
Proof.
  induction r as [|t r IH]; intros s Hs; simpl.
  - rewrite app_nil_r. reflexivity.
  - rewrite IH.
    + unfold appendSentence. destruct s; [contradiction|].
      cbn [nonEmpty]. rewrite <- !app_assoc. reflexivity.
    + unfold appendSentence. destruct s; [contradiction|discriminate].
Qed.

Lemma joinDot_cons s r :
  s <> [] -> joinDot (s :: r) = s ++ concat (map (fun t => js ". " ++ t) r).
Proof. intros Hs. unfold joinDot. simpl. apply fold_append_cons, Hs. Qed.

Lemma joinDot_nonEmpty g :
  Forall cleanSentence g -> g <> [] -> joinDot g <> [].
Proof.
  destruct g as [|t g] using rev_ind; [congruence|]. intros Hg _.
  rewrite joinDot_snoc. apply appendSentence_nonEmpty.
  apply Forall_app in Hg as [_ Hg]. inversion Hg as [|? ? Ht _]. apply Ht.
Qed.

Lemma joinDot_trimmed g :
  Forall cleanSentence g -> trim (joinDot g) = joinDot g.
Proof.
  induction g as [|t g IH] using rev_ind; [reflexivity|]. intros Hg.
  apply Forall_app in Hg as [Hg Ht].
  inversion Ht as [|? ? (Hne & Htrim & _) _]; subst.
  rewrite joinDot_snoc. unfold appendSentence.
  destruct (joinDot g) as [|c cur] eqn:E; [exact Htrim|].
  cbn [nonEmpty]. apply trim_sandwich; auto; discriminate.
Qed.

Lemma endsWith_snoc x c p :
  endsWith (x ++ [c]) [p] = charEqb c p.
Proof.
  unfold endsWith. rewrite rev_app_distr. simpl.
  rewrite andb_true_r. reflexivity.
Qed.

Lemma endsWith_dot_nonTerm x t :
  nonTerm t -> t <> [] -> endsWith (x ++ t) (js ".") = false.
Proof.
  intros Ht Hne. destruct (exists_last Hne) as (t' & c & ->).
  rewrite app_assoc. change (js ".") with [DOT]. rewrite endsWith_snoc.
  apply Forall_app in Ht as [_ Ht]. inversion Ht as [|? ? Hc _]; subst.
  unfold isTerminator in Hc. unfold charEqb, DOT.
  destruct (c =? 46)%N; [discriminate|reflexivity].
Qed.

Lemma joinDot_endsWith g :
  Forall cleanSentence g -> endsWith (joinDot g) (js ".") = false.
Proof.
  destruct g as [|t g] using rev_ind; [reflexivity|]. intros Hg.
  apply Forall_app in Hg as [_ Ht].
  inversion Ht as [|? ? (Hne & _ & Hnt) _]; subst.
  rewrite joinDot_snoc. unfold appendSentence. rewrite app_assoc.
  apply endsWith_dot_nonTerm; assumption.
Qed.

Lemma removePadding_seal g : removePadding (seal g) = joinDot g.
Proof.
  unfold removePadding, seal. change (js ".") with [DOT].
  rewrite endsWith_snoc. unfold charEqb. rewrite N.eqb_refl.
  apply removelast_last.
Qed.

(** *** Reading the sentences back from a buffer *)

Lemma cleanSentence_nonBlank t : cleanSentence t -> nonBlank t = true.
Proof.
  intros (Hne & Htrim & _). unfold nonBlank. rewrite Htrim.
  destruct t; [contradiction|reflexivity].
Qed.

Lemma piecesOf_sentences r : forall p,
  nonBlank p = true -> Forall cleanSentence r ->
  map trim (filter nonBlank (piecesOf p r)) = trim p :: r.
Proof.
  induction r as [|t r IH]; intros p Hp Hr; simpl; rewrite Hp.
  - reflexivity.
  - inversion Hr as [|? ? Ht Hr']; subst. simpl. f_equal.
    assert (E : trim (SPACE :: t) = t).
    { rewrite trim_cons_white by reflexivity. apply Ht. }
    rewrite IH; [rewrite E; reflexivity | | assumption].
    unfold nonBlank. rewrite E. destruct Ht as (Hne & _).
    destruct t; [contradiction|reflexivity].
Qed.

Lemma trimmedSentences_joinDot g :
  Forall cleanSentence g -> trimmedSentences (joinDot g) = g.
Proof.
  destruct g as [|s r]; [reflexivity|]. intros Hg.
  inversion Hg as [|? ? Hs Hr]; subst.
  pose proof Hs as (Hne & Htrim & Hnt).
  rewrite joinDot_cons by assumption.
  unfold trimmedSentences, sentencesOf, splitSentences.
  rewrite (splitFrom_app_nonTerm s [] false _ Hnt), app_nil_r. simpl (false && _).
  rewrite splitFrom_joined, rev_involutive.
  - rewrite piecesOf_sentences; [rewrite Htrim; reflexivity | | assumption].
    apply cleanSentence_nonBlank, Hs.
  - eapply Forall_impl; [|exact Hr]. intros t Ht. apply Ht.
Qed.

(** *** The loop groups the trimmed sentences *)

Definition properGroup (g : list jsstring) : Prop :=
  g <> [] /\ Forall cleanSentence g.

Lemma chunkLoop_groups m raws : forall groups g,
  Forall (fun raw => cleanSentence (trim raw)) raws ->
  Forall cleanSentence g ->
  exists groups' g',
    chunkLoop m raws (map seal groups) (joinDot g)
    = (map seal (groups ++ groups'), joinDot g')
    /\ concat groups' ++ g' = g ++ map trim raws
    /\ Forall properGroup groups'
    /\ Forall cleanSentence g'.
Proof.
  induction raws as [|raw raws IH]; intros groups g Hraws Hg.
  - exists [], g. simpl. rewrite !app_nil_r. auto.
  - inversion Hraws as [|? ? Ht Hrest]; subst. cbn [chunkLoop].
    destruct (_ && _) eqn:Test.
    + apply andb_true_iff in Test as [_ Hlen].
      assert (Hne : g <> []).
      { intros ->. discriminate. }
      destruct (IH (groups ++ [g]) [trim raw] Hrest) as (G & g' & E & Hc & HG & Hg').
      { constructor; [exact Ht | constructor]. }
      exists (g :: G), g'. rewrite map_app in E. cbn [map] in E.
      unfold seal at 2 in E. rewrite joinDot_trimmed by assumption.
      change (joinDot [trim raw]) with (appendSentence [] (trim raw)) in E.
      change (appendSentence [] (trim raw)) with (trim raw) in E.
      rewrite <- app_assoc in E. cbn [concat map app] in *.
      split; [exact E|]. repeat split; auto.
      * rewrite <- app_assoc, Hc. reflexivity.
      * constructor; [split; assumption | assumption].
    + destruct (IH groups (g ++ [trim raw]) Hrest) as (G & g' & E & Hc & HG & Hg').
      { apply Forall_app. split; [exact Hg | constructor; [exact Ht | constructor]]. }
      exists G, g'. rewrite joinDot_snoc in E. unfold appendSentence in E.
      split; [exact E|]. repeat split; auto.
      rewrite Hc, <- app_assoc. reflexivity.
Qed.

(** The chunks built from the sentences are the sealed groups of a
    partition of the trimmed sentences into consecutive, non-empty
    groups. *)
Lemma sentenceChunks_groups text m :
  exists groups,
    sentenceChunks text m = map seal groups
    /\ concat groups = trimmedSentences text
    /\ Forall properGroup groups.
Proof.
  unfold sentenceChunks.
  destruct (chunkLoop_groups m (sentencesOf text) [] [])
    as (G & g & E & Hc & HG & Hg).
  { rewrite Forall_forall. apply sentencesOf_spec. }
  { constructor. }
  change (map seal []) with (@nil jsstring) in E.
  change (joinDot []) with (@nil char) in E.
  rewrite E. cbn [app] in *.
  rewrite joinDot_trimmed, joinDot_endsWith by assumption.
  destruct g as [|t g].
  - exists G. rewrite app_nil_r in Hc. auto.
  - assert (Hne : joinDot (t :: g) <> []).
    { apply joinDot_nonEmpty; [assumption|discriminate]. }
    destruct (joinDot (t :: g)) as [|c cur] eqn:Ej; [contradiction|].
    cbn [nonEmpty]. exists (G ++ [t :: g]). rewrite map_app. cbn [map].
    unfold seal at 3. rewrite Ej. repeat split.
    + rewrite concat_app. cbn [concat]. rewrite app_nil_r. exact Hc.
    + apply Forall_app. split; [exact HG|].
      constructor; [|constructor]. split; [discriminate | assumption].
Qed.

Lemma recovered_sealed groups :
  Forall properGroup groups ->
  recoveredSentences (map seal groups) = concat groups.
Proof.
  induction 1 as [|g G [_ Hg] HG IH]; [reflexivity|].
  unfold recoveredSentences in *. cbn [map flat_map concat].
  rewrite IH, removePadding_seal, trimmedSentences_joinDot by assumption.
  reflexivity.
Qed.

(** *** Texts without a sentence *)

Definition blankChar (c : char) : Prop :=
  isTerminator c || isWhiteSpace c = true.

Lemma splitFrom_blank s : forall piece b,
  (b = true -> piece = []) ->
  filter nonBlank (splitFrom piece b s) = []
  <-> allWhite piece /\ Forall blankChar s.
Proof.
  induction s as [|c r IH]; intros piece b Hb; simpl.
  - destruct (nonBlank (rev piece)) eqn:E.
    + split; [discriminate|]. intros [Hp _].
      apply Forall_rev in Hp. apply nonBlank_false in Hp. congruence.
    + apply nonBlank_false in E. apply Forall_rev in E.
      rewrite rev_involutive in E. split; auto.
  - destruct (isTerminator c) eqn:T.
    + assert (Hc : blankChar c) by (unfold blankChar; rewrite T; reflexivity).
      assert (Hcons : Forall blankChar (c :: r) <-> Forall blankChar r).
      { split; [inversion 1; assumption | constructor; assumption]. }
      rewrite Hcons. destruct b.
      * rewrite (Hb eq_refl). apply IH. reflexivity.
      * simpl. destruct (nonBlank (rev piece)) eqn:E.
        -- split; [discriminate|]. intros [Hp _].
           apply Forall_rev in Hp. apply nonBlank_false in Hp. congruence.
        -- apply nonBlank_false in E. apply Forall_rev in E.
           rewrite rev_involutive in E. rewrite IH by reflexivity.
           split; intros [_ Hr]; split; auto; constructor.
    + rewrite IH by discriminate. unfold allWhite, blankChar.
      split.
      * intros [Hp Hr]. inversion Hp; subst. split; [assumption|].
        constructor; [|assumption]. rewrite T. assumption.
      * intros [Hp Hr]. inversion Hr as [|? ? Hc Hr']; subst.
        rewrite T in Hc. split; [constructor|]; assumption.
Qed.

(** The sentence pass finds nothing exactly in the texts made of
    terminators and white space only. *)
Lemma sentencesOf_nil text : sentencesOf text = [] <-> Forall blankChar text.
Proof.
  unfold sentencesOf, splitSentences.
  rewrite splitFrom_blank by discriminate. unfold allWhite.
  split; [tauto | intros H; split; [constructor | exact H]].
Qed.

Lemma sentenceChunks_nil text m :
  sentenceChunks text m = [] <-> Forall blankChar text.
Proof.
  rewrite <- sentencesOf_nil.
  destruct (sentenceChunks_groups text m) as (G & -> & Hc & HG).
  unfold trimmedSentences in Hc. split.
  - intros E. destruct G; [|discriminate]. simpl in Hc.
    destruct (sentencesOf text); [reflexivity|discriminate].
  - intros E. rewrite E in Hc. destruct G as [|g G]; [reflexivity|].
    inversion HG as [|? ? [Hne _] _]; subst. simpl in Hc.
    apply app_eq_nil in Hc as [Hg _]. contradiction.
Qed.

Lemma removePadding_blank s : Forall blankChar s -> Forall blankChar (removePadding s).
Proof.
  unfold removePadding. destruct (endsWith s (js ".")); [|trivial].
  induction 1 as [|c r Hc Hr IH]; [constructor|].
  simpl. destruct r; [constructor|]. constructor; assumption.
Qed.

End ChunkFacts.

(* ===================================================================== *)
(** ** Facts about the speech engine wrapper *)
(* ===================================================================== *)

Module EngineFacts.
Import Engine.

#[local] Arguments js : simpl never.
#[local] Arguments errorMessage : simpl never.

Lemma jsstring_eqb_spec s : forall t, JsString.eqb s t = true <-> s = t.
Proof.
  induction s as [|a s IH]; intros [|b t]; simpl; try (split; [discriminate|congruence]).
  - tauto.
  - unfold charEqb. rewrite andb_true_iff, N.eqb_eq, IH.
    split; [intros [-> ->]; reflexivity | intros [= -> ->]; auto].
Qed.

Lemma jsstring_eqb_neq s t : s <> t -> JsString.eqb s t = false.
Proof.
  intros H. destruct (JsString.eqb s t) eqn:E; [|reflexivity].
  apply jsstring_eqb_spec in E. contradiction.
Qed.

(** *** Promises *)

Lemma updateAt_fresh f l :
  nth_error (updateAt f (length l) (l ++ [Pending])) (length l) = Some (f Pending).
Proof. induction l as [|p l IH]; simpl; [reflexivity | exact IH]. Qed.

Lemma nth_error_fresh (l : list Promise) :
  nth_error (l ++ [Pending]) (length l) = Some Pending.
Proof. induction l as [|p l IH]; simpl; [reflexivity | exact IH]. Qed.

Lemma nth_error_updateAt f l : forall n p,
  nth_error l n = Some p -> nth_error (updateAt f n l) n = Some (f p).
Proof.
  induction l as [|q l IH]; intros [|n] p; simpl; try discriminate.
  - intros [= ->]. reflexivity.
  - apply IH.
Qed.

(** The settlement that the handlers of an utterance give its promise. *)
Definition settlement (outcome : Outcome) : Promise :=
  match outcome with
  | Finishes => Resolved
  | Fails error =>
      if JsString.eqb error (js "canceled")
      then Resolved
      else Rejected (errorMessage error)
  | Stalls => Pending
  end.

(** The handlers settle a promise that is still pending. *)
Lemma onend_settles w pid :
  promiseState w pid = Some Pending ->
  promiseState (exec (onend pid) w) pid = Some Resolved.
Proof. intros H. exact (nth_error_updateAt resolve _ _ _ H). Qed.

Lemma onerror_settles w pid error :
  promiseState w pid = Some Pending ->
  promiseState (exec (onerror pid error) w) pid = Some (settlement (Fails error)).
Proof.
  intros H. unfold onerror, exec, bind, settlement. simpl.
  destruct (JsString.eqb error (js "canceled")); simpl;
    unfold promiseState; simpl.
  - exact (nth_error_updateAt resolve _ _ _ H).
  - exact (nth_error_updateAt (reject (errorMessage error)) _ _ _ H).
Qed.

(** *** One awaited [speak] *)

(** The synthesizer calls of one [speak]: a [cancel] if the object was
    playing, then the utterance. *)
Definition speakCalls (e : TextToSpeechEngine) (text : jsstring)
           (options : TTSOptions) : list SynthesisCall :=
  (if isPlaying e then [Cancel] else [])
    ++ [Speak (applyOptions options (newUtterance text))].

Lemma speakAndSettle_spec text options outcome w :
  let (promise, w') := speakAndSettle text options outcome w in
  promise = settlement outcome
  /\ synthesis w' = synthesis w ++ speakCalls (this w) text options.
Proof.
  destruct w as [[u playing paused] calls ps].
  unfold speakAndSettle, speakExecutor, speakCalls, bind, newPromise, getThis.
  cbn [this isPlaying promises synthesis].
  destruct playing, outcome as [|error|]; cbn;
    try destruct (JsString.eqb error (js "canceled")); cbn;
    unfold promiseState; cbn;
    rewrite ?updateAt_fresh, ?nth_error_fresh, <- ?app_assoc; cbn; auto.
Qed.

(** *** The flags *)

(** [isPaused => isPlaying], as a test. *)
Definition pausedImpliesPlaying (e : TextToSpeechEngine) : bool :=
  implb (isPaused e) (isPlaying e).

Lemma step_invariant w a :
  pausedImpliesPlaying (this w) = true ->
  pausedImpliesPlaying (this (step w a)) = true.
Proof.
  destruct w as [[u playing paused] calls ps].
  unfold pausedImpliesPlaying. cbn [this isPaused isPlaying]. intros H.
  destruct a as [| text options | | pid | pid error | | |]; cbn [step].
  - unfold speakExecutor, exec, bind. cbn. destruct playing; cbn; auto.
  - exact H.
  - reflexivity.
  - reflexivity.
  - unfold onerror, exec, bind. cbn.
    destruct (JsString.eqb error (js "canceled")); reflexivity.
  - unfold pause, exec, bind. cbn. destruct playing, paused; cbn; auto.
  - unfold resume, exec, bind. cbn. destruct paused; cbn; auto.
  - reflexivity.
Qed.

Lemma run_invariant actions : forall w,
  pausedImpliesPlaying (this w) = true ->
  pausedImpliesPlaying (this (run actions w)) = true.
Proof.
  induction actions as [|a actions IH]; intros w H; [exact H|].
  apply IH, step_invariant, H.
Qed.

(** The paused state is reached: the invariant is not vacuous. *)
Example paused_reached :
  let w := run [CallSpeak;
                FireTimeout (js "Hello.") {| voice := None; rate := None;
                                             pitch := None; volume := None |};
                FireStart; CallPause] newWorld in
  playbackState (this w) = Some Paused.
Proof. reflexivity. Qed.

Lemma stop_this w :
  this (exec stop w) = newEngine.
Proof. reflexivity. Qed.

Lemma stop_log w :
  synthesis (exec stop w) = synthesis w ++ [Cancel]
  /\ promises (exec stop w) = promises w.
Proof. split; reflexivity. Qed.

End EngineFacts.

(* ===================================================================== *)
(** ** Facts about the playback sequencer *)
(* ===================================================================== *)

Module ControlsFacts.
Import Controls.

(** The loop of [handlePlay], unfolded once. *)
Lemma playLoop_unfold c voice outcomes i p :
  playLoop c voice outcomes i p =
  if Z_lt_dec i (Z.of_nat (length (textChunks c)))
  then if isPlaying c
       then match playChunk c voice outcomes i p with
            | NextChunk p' => playLoop c voice outcomes (i + 1) p'
            | Suspended p' => Suspended p'
            end
       else NextChunk p
  else NextChunk p.
Proof.
  funelim (playLoop c voice outcomes i p); clear Heqcall;
    repeat match goal with
           | H : ?x = _ |- context [?x] => rewrite H
           end; reflexivity.
Qed.

Lemma flat_map_snoc {A B : Type} (f : A -> list B) l a :
  flat_map f (l ++ [a]) = flat_map f l ++ f a.
Proof. rewrite flat_map_app. simpl. rewrite app_nil_r. reflexivity. Qed.

(** One turn of the loop whose utterance ends or errors: the chunk has
    been handed to the synthesizer, the index cell holds [i], and the
    loop goes on, whether the promise resolved or rejected. *)
Lemma playChunk_spec c voice outcomes i p :
  outcomes i <> Engine.Stalls ->
  exists p',
    playChunk c voice outcomes i p = NextChunk p'
    /\ spokenTexts p' = spokenTexts p ++ [chunkAt c i]
    /\ currentChunk (view p') = i
    /\ isPlaying (view p') = isPlaying (view p)
    /\ isPaused (view p') = isPaused (view p)
    /\ textChunks (view p') = textChunks (view p).
Proof.
  intros Hout. unfold playChunk.
  pose proof (EngineFacts.speakAndSettle_spec (chunkAt c i)
                (speakOptions voice c) (outcomes i)
                (engine (setCurrentChunk i p))) as H.
  destruct (Engine.speakAndSettle _ _ _ _) as [promise w].
  destruct H as [Hp Hw].
  assert (Hs : forall q, engine q = w ->
               spokenTexts q = spokenTexts p ++ [chunkAt c i]).
  { intros q Hq. unfold spokenTexts. rewrite Hq, Hw.
    unfold EngineFacts.speakCalls. cbn [engine setCurrentChunk modifyView].
    rewrite flat_map_app. f_equal.
    destruct (Engine.isPlaying _); reflexivity. }
  subst promise. destruct (outcomes i) as [|error|]; [| |congruence];
    cbn [EngineFacts.settlement].
  - eexists. split; [reflexivity|]. split; [apply Hs; reflexivity|].
    repeat split; reflexivity.
  - destruct (JsString.eqb error (js "canceled"));
      (eexists; split; [reflexivity|]; split; [apply Hs; reflexivity|];
       repeat split; reflexivity).
Qed.

Lemma skipn_nth {A : Type} (d : A) (l : list A) : forall n,
  (n < length l)%nat -> skipn n l = nth n l d :: skipn (S n) l.
Proof.
  induction l as [|a l IH]; intros [|n] H; simpl in *; try lia.
  - reflexivity.
  - apply IH. lia.
Qed.

(** A closure that captured [isPlaying = false] leaves the loop at its
    first test: no chunk is spoken, nothing changes. *)
Lemma playLoop_stale_break c voice outcomes i p :
  isPlaying c = false -> playLoop c voice outcomes i p = NextChunk p.
Proof.
  intros H. rewrite playLoop_unfold, H.
  destruct (Z_lt_dec _ _); reflexivity.
Qed.

(** A closure that captured [isPlaying = true] runs the loop to the end of
    the array: every chunk from [i] on is handed to the synthesizer, in
    order, whichever utterances fail; the index cell is left on the last
    chunk. *)
Lemma playLoop_speaks_all c voice outcomes :
  isPlaying c = true ->
  (forall j, outcomes j <> Engine.Stalls) ->
  forall n i p,
    Z.to_nat (Z.of_nat (length (textChunks c)) - i) = n ->
    (0 <= i)%Z ->
    exists p',
      playLoop c voice outcomes i p = NextChunk p'
      /\ spokenTexts p' = spokenTexts p ++ skipn (Z.to_nat i) (textChunks c)
      /\ currentChunk (view p')
         = (if (i <=? lastIndex c)%Z then lastIndex c else currentChunk (view p))
      /\ isPlaying (view p') = isPlaying (view p)
      /\ isPaused (view p') = isPaused (view p).
Proof.
  intros Hplaying Hout. unfold lastIndex.
  induction n as [|n IH]; intros i p Hn Hi; rewrite playLoop_unfold.
  - destruct (Z_lt_dec _ _) as [Hlt|Hge]; [lia|].
    exists p. rewrite skipn_all2 by lia. rewrite app_nil_r.
    destruct (Z.leb_spec i (Z.of_nat (length (textChunks c)) - 1)); [lia|].
    auto.
  - destruct (Z_lt_dec _ _) as [Hlt|Hge]; [|lia]. rewrite Hplaying.
    destruct (playChunk_spec c voice outcomes i p (Hout i))
      as (p1 & -> & Hs1 & Hc1 & Hp1 & Hq1 & _).
    destruct (IH (i + 1)%Z p1) as (p' & -> & Hs & Hc & Hp & Hq); [lia|lia|].
    exists p'. split; [reflexivity|]. repeat split.
    + rewrite Hs, Hs1, <- app_assoc. unfold chunkAt.
      rewrite (@skipn_nth jsstring [] (textChunks c) (Z.to_nat i)) by lia.
      replace (Z.to_nat (i + 1)) with (S (Z.to_nat i)) by lia.
      reflexivity.
    + rewrite Hc, Hc1.
      destruct (Z.leb_spec i (Z.of_nat (length (textChunks c)) - 1)); [|lia].
      destruct (Z.leb_spec (i + 1) (Z.of_nat (length (textChunks c)) - 1)); lia.
    + congruence.
    + congruence.
Qed.

(** [handlePlay] from a closure that captured [isPlaying = false], which
    is the closure the Play button holds while nothing plays: the
    synthesizer receives nothing. *)
Lemma handlePlay_stale text c outcomes p :
  isPlaying c = false ->
  spokenTexts (handlePlay text c outcomes p) = spokenTexts p
  /\ (selectedVoice c <> None -> text <> [] ->
      isPlaying (view (handlePlay text c outcomes p)) = false).
Proof.
  intros H. unfold handlePlay.
  destruct (selectedVoice c) as [voice|]; [|split; [reflexivity|congruence]].
  destruct text as [|a text]; [split; [reflexivity|congruence]|].
  cbn [nonEmpty negb]. rewrite playLoop_stale_break by assumption.
  split; [|reflexivity].
  destruct (currentChunk c >=? lastIndex c)%Z; reflexivity.
Qed.

(** [handlePlay] from a closure that captured [isPlaying = true]: all the
    chunks from the captured index on are spoken whatever fails and the
    page ends not playing, but the index cell returns to 0 only when the
    captured index was already the last one. *)
Lemma handlePlay_playing text c voice outcomes p :
  selectedVoice c = Some voice -> text <> [] ->
  isPlaying c = true ->
  (forall j, outcomes j <> Engine.Stalls) ->
  (0 <= currentChunk c)%Z ->
  let p' := handlePlay text c outcomes p in
  spokenTexts p' = spokenTexts p ++ skipn (Z.to_nat (currentChunk c)) (textChunks c)
  /\ isPlaying (view p') = false
  /\ currentChunk (view p')
     = (if (currentChunk c >=? lastIndex c)%Z then 0 else lastIndex c)%Z.
Proof.
  intros Hv Ht Hplaying Hout Hi. unfold handlePlay. rewrite Hv.
  destruct text as [|a text]; [congruence|]. cbn [nonEmpty negb].
  destruct (playLoop_speaks_all c voice outcomes Hplaying Hout _
              (currentChunk c)
              (setIsPaused false (setIsPlaying true p)) eq_refl Hi)
    as (p2 & -> & Hs & Hc & _).
  cbv zeta. destruct (Z.geb_spec (currentChunk c) (lastIndex c)) as [Hge|Hlt].
  - repeat split. exact Hs.
  - repeat split; [exact Hs|]. cbn. rewrite Hc.
    destruct (Z.leb_spec (currentChunk c) (lastIndex c)); [reflexivity|lia].
Qed.

End ControlsFacts.

(* ===================================================================== *)
(** ** Evaluations *)
(* ===================================================================== *)

Module Evaluations.

Example split_pieces :
splitSentences (js "A. B. C.") = [js "A"; js " B"; js " C"; js ""].
Proof. reflexivity. Qed.

Example split_leading_run :
splitSentences (js "?!a") = [js ""; js "a"].
Proof. reflexivity. Qed.

Example split_hello :
splitTextIntoChunks (js "Hello world.") 300 = [js "Hello world."].
Proof. reflexivity. Qed.

Example split_unterminated :
splitTextIntoChunks (js "Hello world") 300 = [js "Hello world."].
Proof. reflexivity. Qed.

Example split_only_terminators :
sentenceChunks (js "...") 300 = []
/\ splitTextIntoChunks (js "...") 300 = [js "..."].
Proof. split; reflexivity. Qed.

Example split_terminators_normalised :
splitTextIntoChunks (js "aa. bb?! cc") 3 = [js "aa."; js "bb."; js "cc."].
Proof. reflexivity. Qed.

Example clean_example :
cleanExtractedText (js "  a   b " ++ [LF; LF] ++ js " c ") = js "a b c".
Proof. reflexivity. Qed.

Example blank_lines_backtrack :
collapseBlankLines (js "a" ++ [LF; SPACE; LF; SPACE] ++ js "b" ++ [LF] ++ js "c")
= js "a" ++ [LF; LF; SPACE] ++ js "b" ++ [LF] ++ js "c".
Proof. reflexivity. Qed.

End Evaluations.

(* ===================================================================== *)
(** ** Properties of the chunker and of the cleaner *)
(* ===================================================================== *)

Module TextProperties.
Import TrimFacts CleanFacts ChunkFacts.

Lemma splitTextIntoChunks_cases text m :
  (sentenceChunks text m <> []
   /\ splitTextIntoChunks text m = sentenceChunks text m)
  \/ (sentenceChunks text m = [] /\ splitTextIntoChunks text m = [text]).
Proof.
  unfold splitTextIntoChunks.
  destruct (sentenceChunks text m) as [|c chunks]; [right|left]; split;
    (reflexivity || discriminate).
Qed.

(** Read back, the chunks give the trimmed sentences of the text, whatever
    the text and the size. *)
Lemma recovered_split text m :
  recoveredSentences (splitTextIntoChunks text m) = trimmedSentences text.
Proof.
  destruct (splitTextIntoChunks_cases text m) as [[_ ->]|[Hnil ->]].
  - destruct (sentenceChunks_groups text m) as (G & -> & Hc & HG).
    rewrite recovered_sealed by assumption. exact Hc.
  - apply sentenceChunks_nil in Hnil.
    unfold recoveredSentences. cbn [flat_map]. rewrite app_nil_r.
    unfold trimmedSentences.
    rewrite (proj2 (sentencesOf_nil text) Hnil).
    rewrite (proj2 (sentencesOf_nil _) (removePadding_blank _ Hnil)).
    reflexivity.
Qed.

(** The fragments of the specification's wording: the pieces between
    terminators, the empty ones discarded, as they stand in the text. *)
Definition specFragments (text : jsstring) : list jsstring :=
  filter nonEmpty (splitSentences text).

(** The fragments read back from a sequence of chunks once the period
    that seals each chunk is removed. *)
Definition recoveredFragments (chunks : list jsstring) : list jsstring :=
  flat_map (fun c => specFragments (removePadding c)) chunks.

(** C2. For a non-empty text and a positive size, [splitTextIntoChunks]
    returns a non-empty sequence; when the sentence pass leaves no chunk,
    it returns the text itself as the only element. *)
Theorem split_never_empty (text : jsstring) (maxChunkSize : Z) :
  text <> [] -> (maxChunkSize > 0)%Z ->
  splitTextIntoChunks text maxChunkSize <> []
  /\ (sentenceChunks text maxChunkSize = [] ->
      splitTextIntoChunks text maxChunkSize = [text]).
Proof.
  intros _ _.
  destruct (splitTextIntoChunks_cases text maxChunkSize) as [[Hne ->]|[Hnil ->]].
  - split; [exact Hne | contradiction].
  - split; [discriminate | reflexivity].
Qed.

Lemma split_never_empty_witness :
  js "?!" <> [] /\ (3 > 0)%Z
  /\ sentenceChunks (js "?!") 3 = []
  /\ splitTextIntoChunks (js "?!") 3 = [js "?!"].
Proof.
  split; [discriminate|]. split; [reflexivity|]. split; [reflexivity|].
  apply (split_never_empty (js "?!") 3); [discriminate | reflexivity | reflexivity].
Defined.

(** C3, as amended. For a non-empty text and a positive size, the chunks,
    each without the period that seals it, give back the sentences of the
    text in their order, a sentence being a fragment between terminators
    with the white space around it trimmed, and the fragments that hold
    white space only being left out. *)
Theorem split_round_trip (text : jsstring) (maxChunkSize : Z) :
  text <> [] -> (maxChunkSize > 0)%Z ->
  recoveredSentences (splitTextIntoChunks text maxChunkSize)
  = trimmedSentences text.
Proof. intros _ _. apply recovered_split. Qed.

Lemma split_round_trip_witness :
  js "Hi.  Bye! Now?" <> [] /\ (6 > 0)%Z
  /\ splitTextIntoChunks (js "Hi.  Bye! Now?") 6 = [js "Hi. Bye."; js "Now."]
  /\ recoveredSentences (splitTextIntoChunks (js "Hi.  Bye! Now?") 6)
     = [js "Hi"; js "Bye"; js "Now"].
Proof.
  split; [discriminate|]. split; [reflexivity|]. split; [reflexivity|].
  rewrite (split_round_trip (js "Hi.  Bye! Now?") 6);
    [reflexivity | discriminate | reflexivity].
Defined.

(** C3, as stated, fails: the fragments of ["Hi.  Bye."] are ["Hi"] and
    ["  Bye"]; the only chunk is ["Hi. Bye."], which gives back ["Hi"] and
    [" Bye"] and does not hold ["  Bye"] anywhere: the white space around a
    sentence is not kept. *)
Lemma split_fragments_not_kept :
  js "Hi.  Bye." <> [] /\ (300 > 0)%Z
  /\ splitTextIntoChunks (js "Hi.  Bye.") 300 = [js "Hi. Bye."]
  /\ specFragments (js "Hi.  Bye.") = [js "Hi"; js "  Bye"]
  /\ existsb (fun chunk => includes chunk (js "  Bye"))
       (splitTextIntoChunks (js "Hi.  Bye.") 300) = false
  /\ recoveredFragments (splitTextIntoChunks (js "Hi.  Bye.") 300)
     <> specFragments (js "Hi.  Bye.").
Proof.
  split; [discriminate|]. split; [reflexivity|]. split; [reflexivity|].
  split; [reflexivity|]. split; [reflexivity|]. vm_compute. discriminate.
Qed.

(** C4, as amended. [splitTextIntoChunks("A. B. C.", 3)] is
    ["A. B.", "C."]: the size test adds the lengths of the buffer and of
    the sentence, 1 + 1 for ["A"] and ["B"], and does not count the
    separator, so the first two sentences share a chunk. *)
Theorem split_ABC :
  splitTextIntoChunks (js "A. B. C.") 3 = [js "A. B."; js "C."].
Proof. reflexivity. Qed.

(** C4, as stated, fails. *)
Lemma split_ABC_not_one_each :
  splitTextIntoChunks (js "A. B. C.") 3 <> [js "A."; js "B."; js "C."].
Proof. vm_compute. discriminate. Qed.

(** C10. [cleanExtractedText] is idempotent. *)
Theorem cleanExtractedText_idempotent (t : jsstring) :
  cleanExtractedText (cleanExtractedText t) = cleanExtractedText t.
Proof.
  pose proof (clean_normalised t) as Hn.
  rewrite (clean_is_trim_collapse (cleanExtractedText t)).
  unfold collapseWhiteSpace. rewrite (collapseFrom_id _ _ Hn).
  rewrite clean_is_trim_collapse at 1 2. apply trim_idem.
Qed.

End TextProperties.

(* ===================================================================== *)
(** ** Properties of the speech engine wrapper *)
(* ===================================================================== *)

Module EngineProperties.
Import Engine EngineFacts.

Definition noOptions : TTSOptions :=
  {| voice := None; rate := None; pitch := None; volume := None |}.

(** The wrapper while its first utterance is being spoken. *)
Definition speakingWorld : World :=
  run [CallSpeak; FireTimeout (js "Hello.") noOptions; FireStart] newWorld.

(** C5. For every invocation of [speak]: when the utterance ends normally
    the promise resolves; when it ends with the error code ["canceled"]
    the promise resolves as well; when it ends with any other error code
    the promise rejects with an error whose message carries that code. *)
Theorem speak_settlement (w : World) (text : jsstring) (options : TTSOptions) :
  fst (speakAndSettle text options Finishes w) = Resolved
  /\ fst (speakAndSettle text options (Fails (js "canceled")) w) = Resolved
  /\ (forall error : jsstring,
        error <> js "canceled" ->
        fst (speakAndSettle text options (Fails error) w)
        = Rejected (js "Speech synthesis error: " ++ error)).
Proof.
  split; [|split; [|intros error Herr]].
  - pose proof (speakAndSettle_spec text options Finishes w) as H.
    destruct (speakAndSettle _ _ _ _). apply H.
  - pose proof (speakAndSettle_spec text options (Fails (js "canceled")) w) as H.
    destruct (speakAndSettle _ _ _ _). apply H.
  - pose proof (speakAndSettle_spec text options (Fails error) w) as H.
    destruct (speakAndSettle _ _ _ _). destruct H as [-> _].
    cbn [settlement]. rewrite (jsstring_eqb_neq _ _ Herr). reflexivity.
Qed.

Lemma speak_settlement_witness :
  js "network" <> js "canceled"
  /\ fst (speakAndSettle (js "Hello.") noOptions (Fails (js "network")) speakingWorld)
     = Rejected (js "Speech synthesis error: network").
Proof.
  split; [discriminate|].
  apply (proj2 (proj2 (speak_settlement speakingWorld (js "Hello.") noOptions))).
  discriminate.
Defined.

(** C6. From the initial state, after any sequence of calls of [speak],
    [pause], [resume] and [stop] and of timer and utterance callbacks, a
    paused wrapper is a playing one. *)
Theorem paused_implies_playing (actions : list Action) :
  isPaused (this (run actions newWorld)) = true ->
  isPlaying (this (run actions newWorld)) = true.
Proof.
  pose proof (run_invariant actions newWorld eq_refl) as H.
  unfold pausedImpliesPlaying in H.
  destruct (isPaused _); [|discriminate]. intros _. exact H.
Qed.

Lemma paused_implies_playing_witness :
  isPaused (this (run [CallPause] speakingWorld)) = true
  /\ isPlaying (this (run [CallPause] speakingWorld)) = true.
Proof.
  split; [reflexivity|].
  apply (paused_implies_playing
           [CallSpeak; FireTimeout (js "Hello.") noOptions; FireStart; CallPause]).
  reflexivity.
Defined.

(** C7. [stop] leaves the wrapper idle whatever its state was: not
    playing, not paused, no current utterance; a second [stop] leaves it
    as the first did. *)
Theorem stop_idempotent (w : World) :
  this (exec stop (exec stop w)) = this (exec stop w)
  /\ this (exec stop w)
     = {| currentUtterance := None; isPlaying := false; isPaused := false |}
  /\ playbackState (this (exec stop w)) = Some Idle.
Proof. repeat split. Qed.

(** C8. [pause] acts in the speaking state only: there it sets [isPaused]
    and asks the synthesizer to pause, leaving the wrapper paused; in any
    other state it changes nothing and calls nothing. *)
Theorem pause_only_when_speaking (w : World) :
  (playbackState (this w) = Some Speaking ->
   playbackState (this (exec pause w)) = Some Paused
   /\ isPaused (this (exec pause w)) = true
   /\ isPlaying (this (exec pause w)) = true
   /\ currentUtterance (this (exec pause w)) = currentUtterance (this w)
   /\ synthesis (exec pause w) = synthesis w ++ [Pause]
   /\ promises (exec pause w) = promises w)
  /\ (playbackState (this w) <> Some Speaking -> exec pause w = w).
Proof.
  destruct w as [[u playing paused] calls ps].
  destruct playing, paused; cbn; split; intros H;
    try discriminate; try congruence; repeat split; reflexivity.
Qed.

Lemma pause_only_when_speaking_witness :
  (playbackState (this speakingWorld) = Some Speaking
   /\ playbackState (this (exec pause speakingWorld)) = Some Paused)
  /\ (playbackState (this newWorld) <> Some Speaking
      /\ exec pause newWorld = newWorld)
  /\ (playbackState (this (exec pause speakingWorld)) <> Some Speaking
      /\ exec pause (exec pause speakingWorld) = exec pause speakingWorld).
Proof.
  split; [|split].
  - split; [reflexivity|].
    apply (proj1 (pause_only_when_speaking speakingWorld)). reflexivity.
  - split; [discriminate|].
    apply (proj2 (pause_only_when_speaking newWorld)). discriminate.
  - split; [discriminate|].
    apply (proj2 (pause_only_when_speaking (exec pause speakingWorld))).
    discriminate.
Defined.

End EngineProperties.

(* ===================================================================== *)
(** ** Properties of the playback sequencer *)
(* ===================================================================== *)

Module ControlsProperties.
Import Controls ControlsFacts.

(** *** A document of three chunks *)

Definition samantha : Engine.SpeechSynthesisVoice :=
  {| Engine.voiceURI := js "com.apple.voice.Samantha";
     Engine.name := js "Samantha";
     Engine.lang := js "en-US";
     Engine.localService := true |}.

(** Three sentences of 200 letters each: no two of them fit a chunk of the
    default size. *)
Definition threeSentences : jsstring :=
  repeat 97%N 200 ++ js ". " ++ repeat 98%N 200 ++ js ". "
    ++ repeat 99%N 200 ++ js ".".

(** The page once the voices are loaded and the text has arrived. *)
Definition loadedPage : Page :=
  loadText threeSentences (setSelectedVoice (Some samantha) initialPage).

(** The synthesizer fails on the second chunk only. *)
Definition secondFails (i : Z) : Engine.Outcome :=
  if (i =? 1)%Z then Engine.Fails (js "synthesis-failed") else Engine.Finishes.

(** The cells of [loadedPage] as a render with [isPlaying] set would hand
    them to its handlers. *)
Definition playingCells : State :=
  {| selectedVoice := selectedVoice (view loadedPage);
     rate := rate (view loadedPage);
     pitch := pitch (view loadedPage);
     volume := volume (view loadedPage);
     isPlaying := true;
     isPaused := false;
     currentChunk := currentChunk (view loadedPage);
     textChunks := textChunks (view loadedPage) |}.

Definition atChunk (i : Z) : Page := setCurrentChunk i loadedPage.

(** C9. With the index inside the chunk sequence: [next] at the last
    index and [previous] at index 0 change nothing; elsewhere they move
    the index by one, and the index stays inside the sequence. *)
Theorem navigation_clamped (p : Page) :
  (0 <= currentChunk (view p) <= lastIndex (view p))%Z ->
  (currentChunk (view p) = lastIndex (view p) -> next p = p)
  /\ (currentChunk (view p) = 0%Z -> previous p = p)
  /\ (currentChunk (view p) <> lastIndex (view p) ->
      currentChunk (view (next p)) = (currentChunk (view p) + 1)%Z)
  /\ (currentChunk (view p) <> 0%Z ->
      currentChunk (view (previous p)) = (currentChunk (view p) - 1)%Z)
  /\ (0 <= currentChunk (view (next p)) <= lastIndex (view p))%Z
  /\ (0 <= currentChunk (view (previous p)) <= lastIndex (view p))%Z
  /\ textChunks (view (next p)) = textChunks (view p)
  /\ textChunks (view (previous p)) = textChunks (view p).
Proof.
  intros Hi. unfold next, previous, handleNext, handlePrevious.
  destruct (Z.ltb_spec (currentChunk (view p)) (lastIndex (view p)));
    destruct (Z.gtb_spec (currentChunk (view p)) 0);
    destruct (isPlaying (view p)); cbn;
    repeat split; intros; try reflexivity; lia.
Qed.

Lemma navigation_clamped_witness :
  (0 <= currentChunk (view (atChunk 1)) <= lastIndex (view (atChunk 1)))%Z
  /\ lastIndex (view (atChunk 1)) = 2%Z
  /\ currentChunk (view (next (atChunk 1))) = 2%Z
  /\ currentChunk (view (previous (atChunk 1))) = 0%Z
  /\ next (atChunk 2) = atChunk 2
  /\ previous (atChunk 0) = atChunk 0.
Proof.
  assert (H1 : (0 <= currentChunk (view (atChunk 1)) <= lastIndex (view (atChunk 1)))%Z)
    by (vm_compute; split; discriminate).
  assert (H2 : (0 <= currentChunk (view (atChunk 2)) <= lastIndex (view (atChunk 2)))%Z)
    by (vm_compute; split; discriminate).
  assert (H0 : (0 <= currentChunk (view (atChunk 0)) <= lastIndex (view (atChunk 0)))%Z)
    by (vm_compute; split; discriminate).
  split; [exact H1|]. split; [vm_compute; reflexivity|].
  destruct (navigation_clamped (atChunk 1) H1) as (_ & _ & Hn & Hp & _).
  destruct (navigation_clamped (atChunk 2) H2) as (Hlast & _).
  destruct (navigation_clamped (atChunk 0) H0) as (_ & Hfirst & _).
  split; [rewrite Hn; [vm_compute; reflexivity | vm_compute; discriminate]|].
  split; [rewrite Hp; [vm_compute; reflexivity | vm_compute; discriminate]|].
  split; [apply Hlast; vm_compute; reflexivity | apply Hfirst; vm_compute; reflexivity].
Defined.

(** C1, evaluated. The page holds three chunks and the synthesizer fails
    on the second one only.  Pressing Play on the idle page runs
    [handlePlay] with the cells of that page, [isPlaying = false] among
    them: the loop stops at its first test and nothing is spoken.  Run
    with cells that hold [isPlaying = true], [handlePlay] speaks the three
    chunks, logs the failure of the second and ends not playing, and the
    index stays on the last chunk: the reset reads the captured index,
    which is 0. *)
Theorem play_three_chunks_second_fails :
  length (textChunks (view loadedPage)) = 3%nat
  /\ (let p := play threeSentences secondFails loadedPage in
      spokenTexts p = []
      /\ isPlaying (view p) = false
      /\ currentChunk (view p) = 0%Z)
  /\ (let q := handlePlay threeSentences playingCells secondFails loadedPage in
      spokenTexts q = textChunks (view loadedPage)
      /\ In (ConsoleWarn 1 (js "Speech synthesis error: synthesis-failed"))
            (effects q)
      /\ isPlaying (view q) = false
      /\ currentChunk (view q) = 2%Z).
Proof.
  split; [vm_compute; reflexivity|]. split.
  - vm_compute. repeat split.
  - vm_compute. repeat split. right. left. reflexivity.
Qed.

End ControlsProperties.

(* ===================================================================== *)
(** ** More about the chunker: shape and size of the chunks *)
(* ===================================================================== *)

Module ChunkShape.
Import TrimFacts ChunkFacts.

(** A buffer of several sentences stays within [maxChunkSize] plus the two
    code units of the separator that the size test leaves out. *)
Definition sizeOk (m : Z) (g : list jsstring) : Prop :=
  (length g <= 1)%nat \/ (Z.of_nat (length (joinDot g)) <= m + 2)%Z.

Lemma joinDot_nil_inv g : Forall cleanSentence g -> joinDot g = [] -> g = [].
Proof.
  intros Hg E. destruct g as [|t g]; [reflexivity|].
  exfalso. apply (joinDot_nonEmpty (t :: g)); [assumption|discriminate|assumption].
Qed.

Lemma chunkLoop_sized m raws : forall groups g,
  Forall (fun raw => cleanSentence (trim raw)) raws ->
  Forall cleanSentence g ->
  sizeOk m g ->
  exists groups' g',
    chunkLoop m raws (map seal groups) (joinDot g)
    = (map seal (groups ++ groups'), joinDot g')
    /\ concat groups' ++ g' = g ++ map trim raws
    /\ Forall properGroup groups'
    /\ Forall cleanSentence g'
    /\ Forall (sizeOk m) groups'
    /\ sizeOk m g'.
Proof.
  induction raws as [|raw raws IH]; intros groups g Hraws Hg Hsize.
  - exists [], g. simpl. rewrite !app_nil_r. auto 10.
  - inversion Hraws as [|? ? Ht Hrest]; subst. cbn [chunkLoop].
    destruct (_ && _) eqn:Test.
    + apply andb_true_iff in Test as [_ Hlen].
      assert (Hne : g <> []) by (intros ->; discriminate).
      destruct (IH (groups ++ [g]) [trim raw] Hrest)
        as (G & g' & E & Hc & HG & Hg' & HS & Hs').
      { constructor; [exact Ht | constructor]. }
      { left. simpl. lia. }
      exists (g :: G), g'. rewrite map_app in E. cbn [map] in E.
      unfold seal at 2 in E. rewrite joinDot_trimmed by assumption.
      change (joinDot [trim raw]) with (appendSentence [] (trim raw)) in E.
      change (appendSentence [] (trim raw)) with (trim raw) in E.
      rewrite <- app_assoc in E. cbn [concat map app] in *.
      split; [exact E|]. repeat split; auto.
      * rewrite <- app_assoc, Hc. reflexivity.
      * constructor; [split; assumption | assumption].
    + destruct (IH groups (g ++ [trim raw]) Hrest)
        as (G & g' & E & Hc & HG & Hg' & HS & Hs').
      { apply Forall_app. split; [exact Hg | constructor; [exact Ht | constructor]]. }
      { destruct g as [|s g]; [left; simpl; lia|]. right.
        assert (Hcur : joinDot (s :: g) <> [])
          by (apply joinDot_nonEmpty; [assumption|discriminate]).
        rewrite joinDot_snoc. unfold appendSentence.
        destruct (joinDot (s :: g)) as [|c cur] eqn:Ecur; [contradiction|].
        cbn [nonEmpty]. apply andb_false_iff in Test as [Test|Test].
        - rewrite !length_app. change (length (js ". ")) with 2%nat.
          destruct (Z.gtb_spec (Z.of_nat (length (c :: cur) + length (trim raw))) m);
            [discriminate|]. lia.
        - simpl in Test. discriminate. }
      exists G, g'. rewrite joinDot_snoc in E. unfold appendSentence in E.
      split; [exact E|]. repeat split; auto.
      rewrite Hc, <- app_assoc. reflexivity.
Qed.

Lemma sentenceChunks_sized text m :
  exists groups,
    sentenceChunks text m = map seal groups
    /\ concat groups = trimmedSentences text
    /\ Forall properGroup groups
    /\ Forall (sizeOk m) groups.
Proof.
  unfold sentenceChunks.
  destruct (chunkLoop_sized m (sentencesOf text) [] [])
    as (G & g & E & Hc & HG & Hg & HS & Hs).
  { rewrite Forall_forall. apply sentencesOf_spec. }
  { constructor. }
  { left. simpl. lia. }
  change (map seal []) with (@nil jsstring) in E.
  change (joinDot []) with (@nil char) in E.
  rewrite E. cbn [app] in *.
  rewrite joinDot_trimmed, joinDot_endsWith by assumption.
  destruct g as [|t g].
  - exists G. rewrite app_nil_r in Hc. auto.
  - assert (Hne : joinDot (t :: g) <> []).
    { apply joinDot_nonEmpty; [assumption|discriminate]. }
    destruct (joinDot (t :: g)) as [|c cur] eqn:Ej; [contradiction|].
    cbn [nonEmpty]. exists (G ++ [t :: g]). rewrite map_app. cbn [map].
    unfold seal at 3. rewrite Ej. repeat split.
    + rewrite concat_app. cbn [concat]. rewrite app_nil_r. exact Hc.
    + apply Forall_app. split; [exact HG|].
      constructor; [|constructor]. split; [discriminate | assumption].
    + apply Forall_app. split; [exact HS|]. constructor; [exact Hs | constructor].
Qed.

Lemma seal_shape g :
  properGroup g ->
  seal g <> [] /\ endsWith (seal g) (js ".") = true /\ trim (seal g) = seal g.
Proof.
  intros [Hne Hg]. unfold seal. split; [|split].
  - intros E. apply app_eq_nil in E as [_ E]. discriminate.
  - change (js ".") with [DOT]. rewrite endsWith_snoc. reflexivity.
  - apply (trim_sandwich (joinDot g) [] (js ".")).
    + apply joinDot_trimmed, Hg.
    + apply joinDot_nonEmpty; assumption.
    + reflexivity.
    + discriminate.
Qed.

(** The cases of [splitTextIntoChunks], with the texts they occur for. *)
Lemma split_by_blankness text m :
  (Forall blankChar text /\ splitTextIntoChunks text m = [text])
  \/ (~ Forall blankChar text
      /\ splitTextIntoChunks text m = sentenceChunks text m).
Proof.
  unfold splitTextIntoChunks.
  destruct (sentenceChunks text m) as [|c chunks] eqn:E.
  - left. split; [|reflexivity]. apply (sentenceChunks_nil text m), E.
  - right. split; [|reflexivity]. intros H.
    apply (sentenceChunks_nil text m) in H. congruence.
Qed.

End ChunkShape.

(* ===================================================================== *)
(** ** Further properties of the chunker *)
(* ===================================================================== *)

Module ChunkProperties.
Import TrimFacts ChunkFacts ChunkShape.

Lemma sample_not_blank : ~ Forall blankChar (js "Hi.  Bye! Now?").
Proof. intros H. inversion H as [|? ? Hc _]. discriminate Hc. Qed.

(** X1. Unless the text holds terminators and white space only, every chunk
    is non-empty, ends with a period and has no white space at either
    end. *)
Theorem chunks_sealed_and_trimmed (text : jsstring) (maxChunkSize : Z)
        (chunk : jsstring) :
  ~ Forall blankChar text ->
  In chunk (splitTextIntoChunks text maxChunkSize) ->
  chunk <> [] /\ endsWith chunk (js ".") = true /\ trim chunk = chunk.
Proof.
  intros Hnb Hin.
  destruct (split_by_blankness text maxChunkSize) as [[Hb _]|[_ E]];
    [contradiction|].
  rewrite E in Hin.
  destruct (sentenceChunks_sized text maxChunkSize) as (G & EG & _ & HG & _).
  rewrite EG in Hin. apply in_map_iff in Hin as (g & <- & Hg).
  rewrite Forall_forall in HG. apply seal_shape, HG, Hg.
Qed.

Lemma chunks_sealed_and_trimmed_witness :
  In (js "Hi. Bye.") (splitTextIntoChunks (js "Hi.  Bye! Now?") 6)
  /\ endsWith (js "Hi. Bye.") (js ".") = true
  /\ trim (js "Hi. Bye.") = js "Hi. Bye.".
Proof.
  assert (Hin : In (js "Hi. Bye.") (splitTextIntoChunks (js "Hi.  Bye! Now?") 6))
    by (left; reflexivity).
  split; [exact Hin|].
  exact (proj2 (chunks_sealed_and_trimmed (js "Hi.  Bye! Now?") 6 (js "Hi. Bye.")
                  sample_not_blank Hin)).
Defined.

(** X2. The size is a soft bound: unless the text holds terminators and
    white space only, a chunk is either one sentence of the text with its
    period, however long, or at most [maxChunkSize + 3] code units long
    (the separator inside and the period at the end are not counted by the
    size test). *)
Theorem chunks_softly_bounded (text : jsstring) (maxChunkSize : Z)
        (chunk : jsstring) :
  ~ Forall blankChar text ->
  In chunk (splitTextIntoChunks text maxChunkSize) ->
  (exists t, In t (trimmedSentences text) /\ chunk = t ++ js ".")
  \/ (Z.of_nat (length chunk) <= maxChunkSize + 3)%Z.
Proof.
  intros Hnb Hin.
  destruct (split_by_blankness text maxChunkSize) as [[Hb _]|[_ E]];
    [contradiction|].
  rewrite E in Hin.
  destruct (sentenceChunks_sized text maxChunkSize) as (G & EG & Hc & HG & HS).
  rewrite EG in Hin. apply in_map_iff in Hin as (g & <- & Hg).
  rewrite Forall_forall in HG, HS.
  destruct (HS g Hg) as [Hone|Hlen].
  - left. destruct (HG g Hg) as [Hne _].
    destruct g as [|t [|t' g']]; [contradiction| |simpl in Hone; lia].
    exists t. split; [|reflexivity].
    rewrite <- Hc. apply in_concat. exists [t]. split; [exact Hg | left; reflexivity].
  - right. unfold seal. rewrite length_app. change (length (js ".")) with 1%nat. lia.
Qed.

Lemma chunks_softly_bounded_witness :
  In (js "Hi. Bye.") (splitTextIntoChunks (js "Hi.  Bye! Now?") 6)
  /\ ((exists t, In t (trimmedSentences (js "Hi.  Bye! Now?"))
                 /\ js "Hi. Bye." = t ++ js ".")
      \/ (Z.of_nat (length (js "Hi. Bye.")) <= 6 + 3)%Z).
Proof.
  assert (Hin : In (js "Hi. Bye.") (splitTextIntoChunks (js "Hi.  Bye! Now?") 6))
    by (left; reflexivity).
  split; [exact Hin|].
  exact (chunks_softly_bounded (js "Hi.  Bye! Now?") 6 (js "Hi. Bye.")
           sample_not_blank Hin).
Defined.

(** X3. The sentence pass leaves no chunk exactly for the texts that hold
    terminators and white space only (the empty text among them); for these
    the text itself comes back, unsealed, as the only chunk. *)
Theorem fallback_iff_blank (text : jsstring) (maxChunkSize : Z) :
  (sentenceChunks text maxChunkSize = [] <-> Forall blankChar text)
  /\ (Forall blankChar text -> splitTextIntoChunks text maxChunkSize = [text]).
Proof.
  split; [apply sentenceChunks_nil|]. intros Hb.
  destruct (split_by_blankness text maxChunkSize) as [[_ E]|[Hnb _]];
    [exact E | contradiction].
Qed.

Lemma fallback_iff_blank_witness :
  Forall blankChar (js " ?! ")
  /\ splitTextIntoChunks (js " ?! ") 300 = [js " ?! "].
Proof.
  assert (Hb : Forall blankChar (js " ?! ")) by (repeat constructor).
  split; [exact Hb|].
  exact (proj2 (fallback_iff_blank (js " ?! ") 300) Hb).
Defined.

(** X4. Unless the text holds terminators and white space only, the chunks
    are the trimmed sentences of the text cut into consecutive non-empty
    groups, each group written as its sentences joined by a period and a
    space and closed by a period, whatever terminator the sentences had. *)
Theorem chunks_partition_sentences (text : jsstring) (maxChunkSize : Z) :
  ~ Forall blankChar text ->
  exists groups : list (list jsstring),
    concat groups = trimmedSentences text
    /\ Forall (fun g => g <> []) groups
    /\ splitTextIntoChunks text maxChunkSize
       = map (fun g => hd [] g
                       ++ concat (map (fun t => js ". " ++ t) (tl g))
                       ++ js ".") groups.
Proof.
  intros Hnb.
  destruct (split_by_blankness text maxChunkSize) as [[Hb _]|[_ ->]];
    [contradiction|].
  destruct (sentenceChunks_sized text maxChunkSize) as (G & -> & Hc & HG & _).
  exists G. split; [exact Hc|]. split.
  - eapply Forall_impl; [|exact HG]. intros g [Hne _]. exact Hne.
  - apply map_ext_in. intros g Hg. rewrite Forall_forall in HG.
    destruct (HG g Hg) as [Hne Hclean].
    destruct g as [|s r]; [contradiction|]. unfold seal.
    inversion Hclean as [|? ? (Hs & _) _]; subst.
    rewrite joinDot_cons by assumption. cbn [hd tl].
    rewrite <- app_assoc. reflexivity.
Qed.

Lemma chunks_partition_sentences_witness :
  exists groups : list (list jsstring),
    concat groups = trimmedSentences (js "Hi.  Bye! Now?")
    /\ Forall (fun g => g <> []) groups
    /\ splitTextIntoChunks (js "Hi.  Bye! Now?") 6
       = map (fun g => hd [] g
                       ++ concat (map (fun t => js ". " ++ t) (tl g))
                       ++ js ".") groups.
Proof.
  exact (chunks_partition_sentences (js "Hi.  Bye! Now?") 6 sample_not_blank).
Defined.

End ChunkProperties.

Module ChunkGreedy.
Import TrimFacts ChunkFacts ChunkShape.

(** Every group but the last was closed because the first sentence of the
    group after it did not pass the size test. *)
Fixpoint closedWhenFull (m : Z) (groups : list (list jsstring)) : Prop :=
  match groups with
  | [] => True
  | g :: rest =>
      match rest with
      | [] => True
      | next :: _ =>
          (Z.of_nat (length (joinDot g) + length (hd [] next)) > m)%Z
          /\ closedWhenFull m rest
      end
  end.

Lemma hd_first_group (G : list (list jsstring)) (g' : list jsstring) :
  Forall properGroup G ->
  hd [] (hd [] (G ++ [g'])) = hd [] (concat G ++ g').
Proof.
  destruct G as [|n G]; [reflexivity|]. intros H.
  inversion H as [|? ? [Hne _] _]; subst.
  destruct n; [contradiction|reflexivity].
Qed.

Lemma closedWhenFull_cons m g rest :
  closedWhenFull m (g :: rest)
  <-> (rest = []
       \/ ((Z.of_nat (length (joinDot g) + length (hd [] (hd [] rest))) > m)%Z
           /\ rest <> [] /\ closedWhenFull m rest)).
Proof.
  destruct rest as [|next rest]; simpl.
  - split; auto.
  - split.
    + intros [H1 H2]. right. split; [exact H1|]. split; [discriminate | exact H2].
    + intros [H|(H1 & _ & H2)]; [discriminate | split; assumption].
Qed.

Lemma chunkLoop_greedy m raws : forall groups g,
  Forall (fun raw => cleanSentence (trim raw)) raws ->
  Forall cleanSentence g ->
  exists groups' g',
    chunkLoop m raws (map seal groups) (joinDot g)
    = (map seal (groups ++ groups'), joinDot g')
    /\ concat groups' ++ g' = g ++ map trim raws
    /\ Forall properGroup groups'
    /\ Forall cleanSentence g'
    /\ closedWhenFull m (groups' ++ [g']).
Proof.
  induction raws as [|raw raws IH]; intros groups g Hraws Hg.
  - exists [], g. simpl. rewrite !app_nil_r. auto 10.
  - inversion Hraws as [|? ? Ht Hrest]; subst. cbn [chunkLoop].
    destruct (_ && _) eqn:Test.
    + apply andb_true_iff in Test as [Hfull Hlen].
      assert (Hne : g <> []) by (intros ->; discriminate).
      destruct (IH (groups ++ [g]) [trim raw] Hrest)
        as (G & g' & E & Hc & HG & Hg' & Hgr).
      { constructor; [exact Ht | constructor]. }
      exists (g :: G), g'. rewrite map_app in E. cbn [map] in E.
      unfold seal at 2 in E. rewrite joinDot_trimmed by assumption.
      change (joinDot [trim raw]) with (appendSentence [] (trim raw)) in E.
      change (appendSentence [] (trim raw)) with (trim raw) in E.
      rewrite <- app_assoc in E. cbn [concat map] in *.
      split; [exact E|]. repeat split; auto.
      * rewrite <- app_assoc, Hc. reflexivity.
      * constructor; [split; assumption | assumption].
      * change ((g :: G) ++ [g']) with (g :: (G ++ [g'])).
        apply closedWhenFull_cons. right.
        rewrite (hd_first_group G g' HG), Hc. cbn [hd app].
        split; [|split; [|exact Hgr]].
        -- destruct (Z.gtb_spec
                       (Z.of_nat (length (joinDot g) + length (trim raw))) m);
             [lia|discriminate].
        -- intros E'. apply app_eq_nil in E' as [_ E']. discriminate.
    + destruct (IH groups (g ++ [trim raw]) Hrest)
        as (G & g' & E & Hc & HG & Hg' & Hgr).
      { apply Forall_app. split; [exact Hg | constructor; [exact Ht | constructor]]. }
      exists G, g'. rewrite joinDot_snoc in E. unfold appendSentence in E.
      split; [exact E|]. repeat split; auto.
      rewrite Hc, <- app_assoc. reflexivity.
Qed.

Lemma closedWhenFull_removelast m G : forall x,
  closedWhenFull m (G ++ [x]) -> closedWhenFull m G.
Proof.
  induction G as [|g G IH]; intros x H; [exact I|].
  change ((g :: G) ++ [x]) with (g :: (G ++ [x])) in H.
  apply closedWhenFull_cons in H. apply closedWhenFull_cons.
  destruct H as [H|(H1 & _ & H2)].
  - apply app_eq_nil in H as [_ H]. discriminate.
  - destruct G as [|n G]; [left; reflexivity|]. right.
    split; [exact H1|]. split; [discriminate|]. exact (IH x H2).
Qed.

Lemma sentenceChunks_greedy text m :
  exists groups,
    sentenceChunks text m = map seal groups
    /\ concat groups = trimmedSentences text
    /\ Forall properGroup groups
    /\ closedWhenFull m groups.
Proof.
  unfold sentenceChunks.
  destruct (chunkLoop_greedy m (sentencesOf text) [] [])
    as (G & g & E & Hc & HG & Hg & Hgr).
  { rewrite Forall_forall. apply sentencesOf_spec. }
  { constructor. }
  change (map seal []) with (@nil jsstring) in E.
  change (joinDot []) with (@nil char) in E.
  rewrite E. cbn [app] in Hc, E |- *.
  rewrite joinDot_trimmed, joinDot_endsWith by assumption.
  destruct g as [|t g].
  - exists G. rewrite app_nil_r in Hc.
    split; [reflexivity|]. split; [exact Hc|]. split; [exact HG|].
    exact (closedWhenFull_removelast m G [] Hgr).
  - assert (Hne : joinDot (t :: g) <> []).
    { apply joinDot_nonEmpty; [assumption|discriminate]. }
    destruct (joinDot (t :: g)) as [|c cur] eqn:Ej; [contradiction|].
    cbn [nonEmpty]. exists (G ++ [t :: g]). rewrite map_app. cbn [map].
    unfold seal at 3. rewrite Ej. repeat split.
    + rewrite concat_app. cbn [concat]. rewrite app_nil_r. exact Hc.
    + apply Forall_app. split; [exact HG|].
      constructor; [|constructor]. split; [discriminate | assumption].
    + exact Hgr.
Qed.

Lemma closedWhenFull_adjacent m groups :
  closedWhenFull m groups ->
  forall before g next after,
    groups = before ++ g :: next :: after ->
    (Z.of_nat (length (joinDot g) + length (hd [] next)) > m)%Z.
Proof.
  intros H before. revert groups H.
  induction before as [|b before IH]; intros groups H g next after ->.
  - simpl in H. apply H.
  - change ((b :: before) ++ g :: next :: after)
      with (b :: (before ++ g :: next :: after)) in H.
    apply closedWhenFull_cons in H. destruct H as [H|(_ & _ & H)].
    + apply app_eq_nil in H as [_ H]. discriminate.
    + eapply IH; [exact H | reflexivity].
Qed.

(** X30. The chunker is greedy: a chunk is closed only when the next
    sentence does not pass the size test.  For two chunks in a row, the
    first without its final period and the first sentence of the second are
    together longer than [maxChunkSize]. *)
Theorem chunks_are_greedy (text : jsstring) (maxChunkSize : Z) :
  ~ Forall blankChar text ->
  exists groups : list (list jsstring),
    splitTextIntoChunks text maxChunkSize
    = map (fun g => joinDot g ++ js ".") groups
    /\ concat groups = trimmedSentences text
    /\ forall before g next after,
         groups = before ++ g :: next :: after ->
         (Z.of_nat (length (joinDot g)) + Z.of_nat (length (hd [] next))
          > maxChunkSize)%Z.
Proof.
  intros Hnb.
  destruct (split_by_blankness text maxChunkSize) as [[Hb _]|[_ ->]];
    [contradiction|].
  destruct (sentenceChunks_greedy text maxChunkSize) as (G & -> & Hc & _ & Hgr).
  exists G. split; [reflexivity|]. split; [exact Hc|].
  intros before g next after E.
  pose proof (closedWhenFull_adjacent _ _ Hgr before g next after E). lia.
Qed.

Lemma chunks_are_greedy_witness :
  exists groups : list (list jsstring),
    splitTextIntoChunks (js "Hi.  Bye! Now?") 6
    = map (fun g => joinDot g ++ js ".") groups
    /\ concat groups = trimmedSentences (js "Hi.  Bye! Now?")
    /\ forall before g next after,
         groups = before ++ g :: next :: after ->
         (Z.of_nat (length (joinDot g)) + Z.of_nat (length (hd [] next)) > 6)%Z.
Proof.
  exact (chunks_are_greedy (js "Hi.  Bye! Now?") 6
           ChunkProperties.sample_not_blank).
Defined.

End ChunkGreedy.

(* ===================================================================== *)
(** ** Reading time and preview *)
(* ===================================================================== *)

Module TextUtilsProperties.
Import TrimFacts TextUtils.









Lemma wordsOf_length text : (1 <= length (wordsOf text))%nat.
Proof.
  unfold wordsOf. generalize (trim text), (@nil char), false.
  induction j as [|c r IH]; intros piece b; simpl; [lia|].
  destruct (isWhiteSpace c); [destruct b|]; simpl; try apply IH.
  specialize (IH [] true). lia.
Qed.



(** X6. For a positive number of words per minute the estimate is the
    number of words divided by it, rounded up, and is at least one minute:
    also for the empty text, which counts as one word. *)
Theorem reading_time_rounds_up (text : jsstring) (wordsPerMinute : Z) :
  (0 < wordsPerMinute)%Z ->
  let words := Z.of_nat (length (wordsOf text)) in
  let minutes := estimateReadingTime text wordsPerMinute in
  (1 <= minutes)%Z
  /\ ((minutes - 1) * wordsPerMinute < words <= minutes * wordsPerMinute)%Z
  /\ (allWhite text -> minutes = 1%Z).
Proof.
  intros Hpos words minutes. unfold minutes, estimateReadingTime.
  fold words.
  assert (Hw : (1 <= words)%Z) by (pose proof (wordsOf_length text); unfold words; lia).
  pose proof (Z.div_mod (words + wordsPerMinute - 1) wordsPerMinute) as Hdm.
  pose proof (Z.mod_pos_bound (words + wordsPerMinute - 1) wordsPerMinute Hpos) as Hm.
  set (q := ((words + wordsPerMinute - 1) / wordsPerMinute)%Z) in *.
  split; [nia|]. split; [nia|].
  intros Hb. assert (E : words = 1%Z).
  { unfold words. apply trim_nil in Hb. unfold wordsOf. rewrite Hb. reflexivity. }
  nia.
Qed.

Lemma reading_time_rounds_up_witness :
  (0 < 150)%Z
  /\ estimateReadingTime (js "") 150 = 1%Z
  /\ (1 <= estimateReadingTime (js "to be or not to be") 4)%Z
  /\ estimateReadingTime (js "to be or not to be") 4 = 2%Z.
Proof.
  split; [reflexivity|].
  split; [apply (reading_time_rounds_up (js "") 150); [reflexivity | constructor]|].
  split; [apply (reading_time_rounds_up (js "to be or not to be") 4); reflexivity|].
  reflexivity.
Defined.

(** X7. A preview of a preview is the preview: [getTextPreview] is
    idempotent for every length limit. *)
Theorem getTextPreview_idempotent (text : jsstring) (maxLength : Z) :
  getTextPreview (getTextPreview text maxLength) maxLength
  = getTextPreview text maxLength.
Proof.
  unfold getTextPreview at 2 3.
  destruct (Z.leb_spec (Z.of_nat (length text)) maxLength) as [Hfit|Hlong].
  - unfold getTextPreview. destruct (Z.leb_spec (Z.of_nat (length text)) maxLength);
      [reflexivity|lia].
  - unfold getTextPreview, substringTo.
    assert (Hlen : length (firstn (Z.to_nat maxLength) text) = Z.to_nat maxLength)
      by (apply firstn_length_le; lia).
    destruct (Z.leb_spec
                (Z.of_nat (length (firstn (Z.to_nat maxLength) text ++ js "...")))
                maxLength) as [Hfit|_].
    + rewrite length_app, Hlen in Hfit. change (length (js "...")) with 3%nat in Hfit.
      lia.
    + rewrite firstn_app, Hlen, Nat.sub_diag, firstn_firstn, Nat.min_id.
      simpl. rewrite app_nil_r. reflexivity.
Qed.

(** X8. A preview is at most three code units longer than the limit, and
    it starts as the text does: up to the limit the two agree.  (It can be
    longer than the text it previews.) *)
Theorem getTextPreview_bounded (text : jsstring) (maxLength : Z) :
  (Z.of_nat (length (getTextPreview text maxLength)) <= Z.max 0 maxLength + 3)%Z
  /\ substringTo (getTextPreview text maxLength) maxLength
     = substringTo text maxLength.
Proof.
  unfold getTextPreview, substringTo.
  destruct (Z.leb_spec (Z.of_nat (length text)) maxLength) as [Hfit|Hlong].
  - split; [lia | reflexivity].
  - assert (Hlen : length (firstn (Z.to_nat maxLength) text) = Z.to_nat maxLength)
      by (apply firstn_length_le; lia).
    split.
    + rewrite length_app, Hlen. change (length (js "...")) with 3%nat. lia.
    + rewrite firstn_app, Hlen, Nat.sub_diag, firstn_firstn, Nat.min_id.
      simpl. apply app_nil_r.
Qed.

End TextUtilsProperties.

(* ===================================================================== *)
(** ** Voices and extraction *)
(* ===================================================================== *)

Module VoicesProperties.
Import Engine Voices TrimFacts.

Lemma filter_split_permutation {A : Type} (f : A -> bool) (l : list A) :
  Permutation (filter f l ++ filter (fun a => negb (f a)) l) l.
Proof.
  induction l as [|a l IH]; simpl; [constructor|].
  destruct (f a); simpl.
  - constructor. exact IH.
  - apply Permutation_sym, Permutation_cons_app, Permutation_sym, IH.
Qed.

Lemma filter_nil_length {A : Type} (f : A -> bool) (l : list A) :
  (0 <? length (filter f l))%nat = existsb f l.
Proof.
  induction l as [|a l IH]; simpl; [reflexivity|].
  destruct (f a); simpl; [reflexivity | exact IH].
Qed.

Definition bing : SpeechSynthesisVoice :=
  {| voiceURI := js "bing-en"; name := js "Microsoft  Aria Online";
     lang := js "en-US"; localService := false |}.

Definition amelie : SpeechSynthesisVoice :=
  {| voiceURI := js "amelie"; name := js "Apple Amelie";
     lang := js "fr-CA"; localService := true |}.

Definition daniel : SpeechSynthesisVoice :=
  {| voiceURI := js "daniel"; name := js "Daniel";
     lang := js "en-GB"; localService := true |}.

(** X9. From a non-empty list of voices a non-empty list is preferred, so
    that a default voice exists, and every preferred voice is one of the
    voices given. *)
Theorem preferred_voices_available (voices : list SpeechSynthesisVoice) :
  voices <> [] ->
  getPreferredVoices voices <> []
  /\ incl (getPreferredVoices voices) voices.
Proof.
  intros Hne. unfold getPreferredVoices.
  destruct (0 <? length (filter localService voices))%nat eqn:L.
  - split.
    + intros E.
      pose proof (filter_split_permutation isEnglish (filter localService voices)) as P.
      rewrite E in P. apply Permutation_nil in P. rewrite P in L. discriminate.
    + intros v Hv. apply in_app_or in Hv as [Hv|Hv];
        apply filter_In in Hv as [Hv _]; apply filter_In in Hv as [Hv _]; exact Hv.
  - destruct (0 <? length (filter isEnglish voices))%nat eqn:E.
    + split; [intros H; rewrite H in E; discriminate|].
      intros v Hv. apply filter_In in Hv as [Hv _]. exact Hv.
    + split; [exact Hne | apply incl_refl].
Qed.

Lemma preferred_voices_available_witness :
  [bing; amelie] <> []
  /\ getPreferredVoices [bing; amelie] = [amelie]
  /\ incl (getPreferredVoices [bing; amelie]) [bing; amelie].
Proof.
  split; [discriminate|]. split; [reflexivity|].
  apply (preferred_voices_available [bing; amelie]). discriminate.
Defined.

(** X10. As soon as one voice is local, the preferred voices are the local
    voices, each one once, and no other: a voice that is not local is left
    out even when it is English and no local voice is. *)
Theorem preferred_voices_local_only (voices : list SpeechSynthesisVoice) :
  existsb localService voices = true ->
  Permutation (getPreferredVoices voices) (filter localService voices)
  /\ Forall (fun v => localService v = true) (getPreferredVoices voices).
Proof.
  intros Hl. unfold getPreferredVoices. rewrite filter_nil_length, Hl.
  pose proof (filter_split_permutation isEnglish (filter localService voices)) as P.
  split; [exact P|].
  apply Forall_forall. intros v Hv.
  apply (Permutation_in _ P) in Hv. apply filter_In in Hv as [_ Hv]. exact Hv.
Qed.

Lemma preferred_voices_local_only_witness :
  existsb localService [bing; amelie; daniel] = true
  /\ getPreferredVoices [bing; amelie; daniel] = [daniel; amelie]
  /\ Forall (fun v => localService v = true)
            (getPreferredVoices [bing; amelie; daniel]).
Proof.
  split; [reflexivity|]. split; [reflexivity|].
  apply (preferred_voices_local_only [bing; amelie; daniel]). reflexivity.
Defined.

Lemma filter_all {A : Type} (f : A -> bool) (l : list A) :
  Forall (fun a => f a = true) l -> filter f l = l.
Proof.
  induction 1 as [|a l Ha Hl IH]; simpl; [reflexivity|]. rewrite Ha, IH. reflexivity.
Qed.

Lemma filter_none {A : Type} (f : A -> bool) (l : list A) :
  Forall (fun a => f a = false) l -> filter f l = [].
Proof.
  induction 1 as [|a l Ha Hl IH]; simpl; [reflexivity|]. rewrite Ha. exact IH.
Qed.

Lemma filter_Forall_true {A : Type} (f : A -> bool) (l : list A) :
  Forall (fun a => f a = true) (filter f l).
Proof. apply Forall_forall. intros a Ha. apply filter_In in Ha. tauto. Qed.

(** X11. Among the preferred voices the English ones come first, in every
    case: the list is its English voices followed by its other voices. *)
Theorem preferred_voices_english_first (voices : list SpeechSynthesisVoice) :
  getPreferredVoices voices
  = filter isEnglish (getPreferredVoices voices)
    ++ filter (fun v => negb (isEnglish v)) (getPreferredVoices voices).
Proof.
  unfold getPreferredVoices.
  destruct (0 <? length (filter localService voices))%nat.
  - set (l := filter localService voices).
    rewrite !filter_app.
    rewrite (filter_all isEnglish (filter isEnglish l)) by apply filter_Forall_true.
    rewrite (filter_none isEnglish (filter (fun v => negb (isEnglish v)) l)).
    2:{ eapply Forall_impl; [|apply filter_Forall_true]. intros v Hv.
        simpl in Hv. destruct (isEnglish v); [discriminate|reflexivity]. }
    rewrite (filter_none (fun v => negb (isEnglish v)) (filter isEnglish l)).
    2:{ eapply Forall_impl; [|apply filter_Forall_true]. intros v Hv.
        simpl in Hv. rewrite Hv. reflexivity. }
    rewrite (filter_all (fun v => negb (isEnglish v))
               (filter (fun v => negb (isEnglish v)) l)) by apply filter_Forall_true.
    rewrite app_nil_r. reflexivity.
  - destruct (0 <? length (filter isEnglish voices))%nat eqn:E.
    + rewrite (filter_all isEnglish (filter isEnglish voices)) by apply filter_Forall_true.
      rewrite (filter_none (fun v => negb (isEnglish v)) (filter isEnglish voices));
        [rewrite app_nil_r; reflexivity|].
      eapply Forall_impl; [|apply filter_Forall_true]. intros v Hv.
      simpl in Hv. rewrite Hv. reflexivity.
    + rewrite filter_nil_length in E.
      assert (Hnone : Forall (fun v => isEnglish v = false) voices).
      { apply Forall_forall. intros v Hv.
        destruct (isEnglish v) eqn:Ev; [|reflexivity].
        assert (existsb isEnglish voices = true)
          by (apply existsb_exists; exists v; auto).
        congruence. }
      rewrite (filter_none isEnglish voices Hnone). simpl.
      symmetry. apply filter_all.
      eapply Forall_impl; [|exact Hnone]. intros v Hv. simpl in Hv.
      rewrite Hv. reflexivity.
Qed.

Lemma startsWith_app s : forall p,
  startsWith s p = true -> s = p ++ skipn (length p) s.
Proof.
  induction s as [|a s IH]; intros [|b p]; simpl; try discriminate; try reflexivity.
  unfold charEqb. intros H. apply andb_true_iff in H as [Hab Hp].
  apply N.eqb_eq in Hab. subst b. f_equal. apply IH, Hp.
Qed.

Lemma trimStart_split s :
  exists ws, s = ws ++ trimStart s /\ allWhite ws.
Proof.
  induction s as [|c r (ws & E & Hws)]; simpl.
  - exists []. split; [reflexivity | constructor].
  - destruct (isWhiteSpace c) eqn:W.
    + exists (c :: ws). split; [simpl; f_equal; exact E | constructor; assumption].
    + exists []. split; [reflexivity | constructor].
Qed.

Lemma stripVendor_spec alternatives name :
  stripVendor alternatives name = name
  \/ exists vendor ws,
       In vendor alternatives /\ ws <> [] /\ allWhite ws
       /\ name = vendor ++ ws ++ stripVendor alternatives name
       /\ headOk (stripVendor alternatives name).
Proof.
  induction alternatives as [|vendor others IH]; simpl; [left; reflexivity|].
  destruct (startsWith name vendor) eqn:S; simpl.
  - destruct (skipn (length vendor) name) as [|c rest] eqn:R.
    + destruct IH as [IH|(v & ws & Hin & H)]; [left; exact IH|].
      right. exists v, ws. split; [right; exact Hin | exact H].
    + destruct (isWhiteSpace c) eqn:W.
      * right. destruct (trimStart_split (c :: rest)) as (ws & E & Hws).
        exists vendor, ws. split; [left; reflexivity|]. split.
        -- intros ->. simpl in E. rewrite W in E.
           pose proof (trimStart_headOk rest) as Hh. rewrite <- E in Hh.
           simpl in Hh. congruence.
        -- split; [exact Hws|]. split; [|apply trimStart_headOk].
           rewrite <- E, <- R. apply startsWith_app, S.
      * destruct IH as [IH|(v & ws & Hin & H)]; [left; exact IH|].
        right. exists v, ws. split; [right; exact Hin | exact H].
  - destruct IH as [IH|(v & ws & Hin & H)]; [left; exact IH|].
    right. exists v, ws. split; [right; exact Hin | exact H].
Qed.

(** X12. The name shown for a voice is the end of its name: either the
    whole name, or what follows a leading vendor word (Microsoft, Google,
    Apple) and all the white space after it; for a voice that is not English
    the language tag follows in parentheses. *)
Theorem formatVoiceName_shows_end_of_name (v : SpeechSynthesisVoice) :
  exists shown,
    formatVoiceName v
    = shown ++ (if isEnglish v then [] else js " (" ++ lang v ++ js ")")
    /\ (shown = name v
        \/ exists vendor ws,
             In vendor vendors /\ ws <> [] /\ allWhite ws
             /\ name v = vendor ++ ws ++ shown /\ headOk shown).
Proof.
  exists (stripVendor vendors (name v)). split.
  - unfold formatVoiceName. destruct (isEnglish v); simpl;
      [rewrite app_nil_r|]; reflexivity.
  - apply stripVendor_spec.
Qed.

Example formatVoiceName_examples :
  formatVoiceName bing = js "Aria Online"
  /\ formatVoiceName amelie = js "Amelie (fr-CA)"
  /\ formatVoiceName daniel = js "Daniel".
Proof. repeat split. Qed.

End VoicesProperties.

Module ExtractionProperties.
Import Extraction.

Definition failedRead (_ : File) : Extracted :=
  Failure (js "Failed to read text file").

Definition readsHello (_ : File) : Extracted := Text (js "Hello.").

Definition picture : File :=
  {| fileName := js "cat.png"; fileType := js "image/png"; fileSize := 1024 |}.

Definition legacyDoc : File :=
  {| fileName := js "letter.doc"; fileType := js "application/msword";
     fileSize := 2048 |}.

(** X13. Whatever makes the extraction fail, an unsupported type or a
    reader that rejects, the caller finds one and the same message; the
    cause's own message never comes through. *)
Theorem extraction_failure_is_uniform
        (extractTextFromTxt extractTextFromPdf extractTextFromDocx : File -> Extracted)
        (file : File) (message : jsstring) :
  extractTextFromFile extractTextFromTxt extractTextFromPdf extractTextFromDocx file
  = Failure message ->
  message = js "Failed to extract text from file".
Proof.
  unfold extractTextFromFile.
  destruct (extractByType _ _ _ file); [discriminate|].
  intros [= <-]. reflexivity.
Qed.

Lemma extraction_failure_is_uniform_witness :
  extractTextFromFile failedRead failedRead failedRead picture
  = Failure (js "Failed to extract text from file")
  /\ js "Failed to extract text from file" = js "Failed to extract text from file".
Proof.
  assert (H : extractTextFromFile failedRead failedRead failedRead picture
              = Failure (js "Failed to extract text from file")) by reflexivity.
  split; [exact H|].
  exact (extraction_failure_is_uniform failedRead failedRead failedRead picture _ H).
Defined.

(** X14. A text comes back only for the four supported types, and it is
    the text of the reader of that type: plain text from the text reader,
    PDF from the PDF reader, both Word types from the DOCX reader. *)
Theorem extraction_text_comes_from_reader
        (extractTextFromTxt extractTextFromPdf extractTextFromDocx : File -> Extracted)
        (file : File) (text : jsstring) :
  extractTextFromFile extractTextFromTxt extractTextFromPdf extractTextFromDocx file
  = Text text ->
  (fileType file = js "text/plain" /\ extractTextFromTxt file = Text text)
  \/ (fileType file = js "application/pdf" /\ extractTextFromPdf file = Text text)
  \/ ((fileType file
       = js "application/vnd.openxmlformats-officedocument.wordprocessingml.document"
       \/ fileType file = js "application/msword")
      /\ extractTextFromDocx file = Text text).
Proof.
  unfold extractTextFromFile, extractByType.
  destruct (JsString.eqb (fileType file) (js "text/plain")) eqn:T.
  { apply EngineFacts.jsstring_eqb_spec in T.
    destruct (extractTextFromTxt file); [|discriminate]. intros [= <-]. auto. }
  destruct (JsString.eqb (fileType file) (js "application/pdf")) eqn:P.
  { apply EngineFacts.jsstring_eqb_spec in P.
    destruct (extractTextFromPdf file); [|discriminate]. intros [= <-]. auto. }
  destruct (JsString.eqb (fileType file) _ || JsString.eqb (fileType file) _) eqn:D.
  { apply orb_true_iff in D.
    destruct (extractTextFromDocx file); [|discriminate]. intros [= <-].
    right. right. split; [|reflexivity].
    destruct D as [D|D]; apply EngineFacts.jsstring_eqb_spec in D; auto. }
  discriminate.
Qed.

Lemma extraction_text_comes_from_reader_witness :
  extractTextFromFile failedRead failedRead readsHello legacyDoc = Text (js "Hello.")
  /\ fileType legacyDoc = js "application/msword".
Proof.
  assert (H : extractTextFromFile failedRead failedRead readsHello legacyDoc
              = Text (js "Hello.")) by reflexivity.
  split; [exact H|].
  destruct (extraction_text_comes_from_reader failedRead failedRead readsHello
              legacyDoc (js "Hello.") H) as [[_ E]|[[_ E]|[_ _]]];
    [discriminate E | discriminate E | reflexivity].
Defined.

End ExtractionProperties.

(* ===================================================================== *)
(** ** Further properties of the speech engine wrapper *)
(* ===================================================================== *)

Module EngineMoreProperties.
Import Engine EngineFacts.

#[local] Arguments js : simpl never.
#[local] Arguments errorMessage : simpl never.

Definition pausedWorld : World :=
  exec pause EngineProperties.speakingWorld.

(** X15. [resume] acts on a paused wrapper only: there it clears [isPaused]
    and asks the synthesizer to resume, the utterance staying what it was;
    on a wrapper that is not paused it changes nothing and calls
    nothing. *)
Theorem resume_only_when_paused (w : World) :
  (isPaused (this w) = true ->
   isPaused (this (exec resume w)) = false
   /\ isPlaying (this (exec resume w)) = isPlaying (this w)
   /\ currentUtterance (this (exec resume w)) = currentUtterance (this w)
   /\ synthesis (exec resume w) = synthesis w ++ [Resume]
   /\ promises (exec resume w) = promises w)
  /\ (isPaused (this w) = false -> exec resume w = w).
Proof.
  destruct w as [[u playing paused] calls ps].
  destruct paused; cbn; split; intros H; try discriminate; repeat split.
Qed.

Lemma resume_only_when_paused_witness :
  (isPaused (this pausedWorld) = true
   /\ playbackState (this (exec resume pausedWorld)) = Some Speaking)
  /\ (isPaused (this newWorld) = false /\ exec resume newWorld = newWorld).
Proof.
  split.
  - split; [reflexivity|].
    destruct (proj1 (resume_only_when_paused pausedWorld) eq_refl)
      as (Hp & Hq & _).
    unfold playbackState. rewrite Hp, Hq. reflexivity.
  - split; [reflexivity|].
    apply (proj2 (resume_only_when_paused newWorld)). reflexivity.
Defined.

(** X16. On a speaking wrapper, [pause] followed by [resume] gives the
    object back as it was; the synthesizer has been asked to pause and to
    resume, in that order. *)
Theorem pause_resume_round_trip (w : World) :
  playbackState (this w) = Some Speaking ->
  this (exec resume (exec pause w)) = this w
  /\ synthesis (exec resume (exec pause w)) = synthesis w ++ [Pause; Resume]
  /\ promises (exec resume (exec pause w)) = promises w.
Proof.
  destruct w as [[u playing paused] calls ps].
  destruct playing, paused; cbn; try discriminate. intros _.
  rewrite <- app_assoc. repeat split.
Qed.

Lemma pause_resume_round_trip_witness :
  playbackState (this EngineProperties.speakingWorld) = Some Speaking
  /\ this (exec resume (exec pause EngineProperties.speakingWorld))
     = this EngineProperties.speakingWorld.
Proof.
  split; [reflexivity|].
  apply (pause_resume_round_trip EngineProperties.speakingWorld). reflexivity.
Defined.

(** *** Promises under the actions *)

Lemma nth_error_updateAt_other f l : forall n k,
  n <> k -> nth_error (updateAt f n l) k = nth_error l k.
Proof.
  induction l as [|q l IH]; intros [|n] [|k] H; simpl; try reflexivity.
  - contradiction.
  - apply IH. congruence.
Qed.

Lemma nth_error_updateAt_settled f l : forall n k p,
  nth_error l k = Some p -> f p = p -> nth_error (updateAt f n l) k = Some p.
Proof.
  induction l as [|q l IH]; intros [|n] [|k] p; simpl; try discriminate; auto.
  intros [= ->] Hf. rewrite Hf. reflexivity.
Qed.

Lemma nth_error_grow (l : list Promise) k p q :
  nth_error l k = Some p -> nth_error (l ++ [q]) k = Some p.
Proof.
  intros H. rewrite nth_error_app1; [exact H|].
  apply nth_error_Some. congruence.
Qed.

(** The actions that settle promise [pid]. *)
Definition settles (pid : nat) (a : Action) : bool :=
  match a with
  | FireEnd k | FireError k _ => Nat.eqb k pid
  | _ => false
  end.

Lemma step_promise w a pid p :
  promiseState w pid = Some p ->
  (p <> Pending \/ settles pid a = false) ->
  promiseState (step w a) pid = Some p.
Proof.
  destruct w as [e calls ps]. unfold promiseState. cbn [promises]. intros H Hp.
  destruct a as [| text options | | k | k error | | |]; cbn [step].
  - unfold speakExecutor, exec, bind, newPromise, getThis. cbn.
    destruct (isPlaying e); cbn; apply nth_error_grow, H.
  - exact H.
  - exact H.
  - cbn. destruct Hp as [Hp|Hp].
    + apply nth_error_updateAt_settled; [exact H|].
      destruct p; [congruence | reflexivity | reflexivity].
    + cbn in Hp. apply Nat.eqb_neq in Hp.
      rewrite nth_error_updateAt_other by exact Hp. exact H.
  - unfold onerror, exec, bind. cbn.
    destruct (JsString.eqb error (js "canceled")); cbn;
      (destruct Hp as [Hp|Hp];
       [apply nth_error_updateAt_settled; [exact H|];
        destruct p; [congruence | reflexivity | reflexivity]
       |cbn in Hp; apply Nat.eqb_neq in Hp;
        rewrite nth_error_updateAt_other by exact Hp; exact H]).
  - unfold pause, exec, bind, getThis. cbn.
    destruct (isPlaying e && negb (isPaused e)); exact H.
  - unfold resume, exec, bind, getThis. cbn.
    destruct (isPaused e); exact H.
  - exact H.
Qed.




(** X18. A pending promise stays pending as long as neither the end nor the
    error event of its own utterance fires: [stop], [pause], [resume], a new
    [speak] and the events of other utterances leave it alone.  (So a
    promise whose utterance the synthesizer drops silently never
    settles.) *)
Theorem promise_waits_for_its_event (actions : list Action) (w : World)
        (pid : nat) :
  promiseState w pid = Some Pending ->
  forallb (fun a => negb (settles pid a)) actions = true ->
  promiseState (run actions w) pid = Some Pending.
Proof.
  revert w. induction actions as [|a actions IH]; intros w H Hall; [exact H|].
  cbn [forallb] in Hall. apply andb_true_iff in Hall as [Ha Hall].
  cbn [run fold_left]. apply IH; [|exact Hall].
  apply step_promise; [exact H | right].
  destruct (settles pid a); [discriminate|reflexivity].
Qed.

Lemma promise_waits_for_its_event_witness :
  promiseState EngineProperties.speakingWorld 0 = Some Pending
  /\ promiseState (run [CallPause; CallResume; CallStop; CallSpeak; FireEnd 1]
                       EngineProperties.speakingWorld) 0
     = Some Pending.
Proof.
  split; [reflexivity|].
  apply (promise_waits_for_its_event
           [CallPause; CallResume; CallStop; CallSpeak; FireEnd 1]
           EngineProperties.speakingWorld 0); reflexivity.
Defined.

(** X19. One utterance at a time: a [speak] on a playing wrapper first
    cancels what plays, then hands its own utterance over; and once that
    utterance has ended or failed the wrapper is idle again, with no current
    utterance, whatever its state was before the call. *)
Theorem speak_preempts_and_ends_idle (w : World) (text : jsstring)
        (options : TTSOptions) (outcome : Outcome) :
  outcome <> Stalls ->
  let w' := snd (speakAndSettle text options outcome w) in
  this w' = newEngine
  /\ synthesis w'
     = synthesis w
         ++ (if isPlaying (this w) then [Cancel] else [])
         ++ [Speak (applyOptions options (newUtterance text))]
  /\ length (promises w') = S (length (promises w)).
Proof.
  intros Hout. destruct w as [[u playing paused] calls ps].
  assert (Hlen : forall f, length (updateAt f (length ps) (ps ++ [Pending]))
                           = S (length ps)).
  { intros f. clear. induction ps as [|p ps IH]; simpl; [reflexivity|].
    rewrite IH. reflexivity. }
  unfold speakAndSettle, speakExecutor, bind, newPromise, getThis.
  cbn [this isPlaying promises synthesis].
  destruct playing, outcome as [|error|]; try congruence; cbn;
    try (unfold onerror, bind; cbn;
         destruct (JsString.eqb error (js "canceled")); cbn);
    rewrite <- ?app_assoc, ?Hlen; repeat split.
Qed.

Lemma speak_preempts_and_ends_idle_witness :
  Fails (js "network") <> Stalls
  /\ this (snd (speakAndSettle (js "Next.") EngineProperties.noOptions
                  (Fails (js "network")) EngineProperties.speakingWorld))
     = newEngine.
Proof.
  split; [discriminate|].
  apply (speak_preempts_and_ends_idle EngineProperties.speakingWorld (js "Next.")
           EngineProperties.noOptions (Fails (js "network"))).
  discriminate.
Defined.

End EngineMoreProperties.

(* ===================================================================== *)
(** ** Further properties of the playback sequencer *)
(* ===================================================================== *)

Module SessionFacts.
Import Controls ControlsFacts Session.

Definition isRestart (e : Effect) : bool :=
  match e with RestartPlay _ _ => true | _ => false end.

(** The index cell is inside the chunk sequence (or 0 while there is
    none). *)
Definition inRange (s : State) : Prop :=
  (0 <= currentChunk s <= Z.max 0 (lastIndex s))%Z.

(** What every page of a session satisfies. *)
Record Quiet (p : Page) : Prop := {
  quiet_view : isPlaying (view p) = false;
  quiet_engine : Engine.this (engine p) = Engine.newEngine;
  quiet_spoken : spokenTexts p = [];
  quiet_effects : existsb isRestart (effects p) = false;
  quiet_index : inRange (view p) }.

Lemma existsb_snoc {A : Type} (f : A -> bool) l a :
  existsb f (l ++ [a]) = existsb f l || f a.
Proof. rewrite existsb_app. simpl. rewrite orb_false_r. reflexivity. Qed.

(** [handlePlay] from a closure that captured [isPlaying = false], in
    full. *)
Lemma handlePlay_idle text c outcomes p :
  isPlaying c = false ->
  handlePlay text c outcomes p
  = match selectedVoice c with
    | None => p
    | Some _ =>
        if negb (nonEmpty text) then p
        else
          let p1 := setIsPaused false (setIsPlaying true p) in
          effect (Toast (js "Playback completed"))
            (setIsPlaying false
               (if (currentChunk c >=? lastIndex c)%Z
                then setCurrentChunk 0 p1 else p1))
    end.
Proof.
  intros H. unfold handlePlay. destruct (selectedVoice c); [|reflexivity].
  destruct (negb (nonEmpty text)); [reflexivity|].
  rewrite playLoop_stale_break by assumption. reflexivity.
Qed.

Lemma loadText_chunks text p :
  text <> [] -> textChunks (view (loadText text p)) <> []
                /\ currentChunk (view (loadText text p)) = 0%Z.
Proof.
  intros H. unfold loadText. destruct text as [|c r]; [contradiction|].
  cbn [nonEmpty]. split; [|reflexivity]. cbn.
  destruct (TextProperties.splitTextIntoChunks_cases (c :: r) defaultMaxChunkSize)
    as [[Hne ->]|[_ ->]]; [exact Hne | discriminate].
Qed.

Lemma inRange_zero s : currentChunk s = 0%Z -> inRange s.
Proof. intros H. unfold inRange. rewrite H. lia. Qed.

Ltac quiet :=
  constructor; unfold spokenTexts, inRange, lastIndex in *; cbn in *;
  rewrite ?flat_map_app, ?existsb_snoc;
  first [assumption | reflexivity | lia
        | match goal with H : _ = _ |- _ => rewrite H; reflexivity end].

Lemma press_quiet text p a :
  Quiet p -> Quiet (snd (press (text, p) a)).
Proof.
  intros [Hv He Hs Hf Hi].
  destruct p as [[voice r pi vol playing paused cur chunks] [e calls ps] effs].
  cbn in Hv, He. subst playing e.
  destruct a as [v|v|v|v|outcomes| | | | |text']; cbn [press snd].
  - quiet.
  - quiet.
  - quiet.
  - quiet.
  - unfold play. cbn [view isPaused]. destruct paused; [quiet|].
    rewrite handlePlay_idle by reflexivity. cbn [selectedVoice].
    destruct voice as [voice|]; [|quiet].
    destruct (negb (nonEmpty text)); [quiet|].
    cbn [currentChunk]. unfold lastIndex. cbn [textChunks].
    destruct (cur >=? Z.of_nat (length chunks) - 1)%Z; quiet.
  - quiet.
  - quiet.
  - unfold previous, handlePrevious. cbn [view currentChunk isPlaying].
    destruct (Z.gtb_spec cur 0); quiet.
  - unfold next, handleNext, lastIndex. cbn [view currentChunk isPlaying textChunks].
    destruct (Z.ltb_spec cur (Z.of_nat (length chunks) - 1)); quiet.
  - unfold loadText. destruct (nonEmpty text'); quiet.
Qed.

Lemma presses_quiet actions : forall text p,
  Quiet p -> Quiet (snd (fold_left press actions (text, p))).
Proof.
  induction actions as [|a actions IH]; intros text p H; [exact H|].
  cbn [fold_left]. destruct (press (text, p) a) as [text' p'] eqn:E.
  apply IH. change p' with (snd (text', p')). rewrite <- E.
  apply press_quiet, H.
Qed.

Lemma initial_quiet text : Quiet (loadText text initialPage).
Proof.
  unfold loadText. destruct (nonEmpty text); constructor; try reflexivity;
    apply inRange_zero; reflexivity.
Qed.

Lemma session_quiet text actions : Quiet (snd (session text actions)).
Proof. apply presses_quiet, initial_quiet. Qed.

(** The chunks are there once a text has been loaded. *)
Lemma press_chunks text p a :
  textChunks (view p) <> [] ->
  isPlaying (view p) = false ->
  textChunks (view (snd (press (text, p) a))) <> [].
Proof.
  intros Hc Hv.
  destruct p as [[voice r pi vol playing paused cur chunks] w effs].
  cbn in Hc, Hv. subst playing.
  destruct a as [v|v|v|v|outcomes| | | | |text']; cbn [press snd];
    try exact Hc.
  - unfold play. cbn [view isPaused]. destruct paused; [exact Hc|].
    rewrite handlePlay_idle by reflexivity. cbn [selectedVoice].
    destruct voice; [|exact Hc].
    destruct (negb (nonEmpty text)); [exact Hc|].
    destruct (_ >=? _)%Z; exact Hc.
  - unfold previous, handlePrevious. cbn [view currentChunk isPlaying].
    destruct (cur >? 0)%Z; exact Hc.
  - unfold next, handleNext. cbn [view currentChunk isPlaying].
    destruct (cur <? _)%Z; exact Hc.
  - destruct text' as [|c t]; [exact Hc|].
    apply loadText_chunks. discriminate.
Qed.

Lemma presses_chunks actions : forall text p,
  Quiet p -> textChunks (view p) <> [] ->
  textChunks (view (snd (fold_left press actions (text, p)))) <> [].
Proof.
  induction actions as [|a actions IH]; intros text p H Hc; [exact Hc|].
  cbn [fold_left]. destruct (press (text, p) a) as [text' p'] eqn:E.
  assert (Ep : p' = snd (press (text, p) a)) by (rewrite E; reflexivity).
  apply IH; rewrite Ep.
  - apply press_quiet, H.
  - apply press_chunks; [exact Hc | apply H].
Qed.

End SessionFacts.

Module SessionProperties.
Import Controls ControlsFacts Session SessionFacts.

Definition samplePresses : list Press :=
  [ChooseVoice (Some ControlsProperties.samantha);
   PressPlay ControlsProperties.secondFails;
   PressNext; PressNext; PressNext;
   PressPause; PressPlay ControlsProperties.secondFails;
   PressPrevious; PressStop].

(** X20. Nothing the user does to the controls makes the synthesizer
    speak.  Every press is handled by a closure that captured
    [isPlaying = false], so [handlePlay] leaves its loop at the first test;
    the page never shows as playing, the wrapper stays idle and no restart
    is ever scheduled. *)
Theorem session_never_speaks (text : jsstring) (actions : list Press) :
  spokenTexts (snd (session text actions)) = []
  /\ isPlaying (view (snd (session text actions))) = false
  /\ Engine.this (engine (snd (session text actions))) = Engine.newEngine
  /\ existsb isRestart (effects (snd (session text actions))) = false.
Proof.
  destruct (session_quiet text actions) as [Hv He Hs Hf _]. auto.
Qed.

(** X21. In a session mounted with a non-empty text the chunk sequence is
    never empty and the index cell stays inside it, whatever is pressed and
    whatever texts arrive later. *)
Theorem session_index_in_range (text : jsstring) (actions : list Press) :
  text <> [] ->
  textChunks (view (snd (session text actions))) <> []
  /\ (0 <= currentChunk (view (snd (session text actions)))
      <= lastIndex (view (snd (session text actions))))%Z.
Proof.
  intros Ht.
  assert (Hc : textChunks (view (snd (session text actions))) <> []).
  { apply presses_chunks; [apply initial_quiet | apply loadText_chunks, Ht]. }
  split; [exact Hc|].
  destruct (session_quiet text actions) as [_ _ _ _ Hi].
  unfold inRange, lastIndex in *.
  destruct (textChunks (view (snd (session text actions)))); [contradiction|].
  simpl length in *. lia.
Qed.

Lemma session_index_in_range_witness :
  ControlsProperties.threeSentences <> []
  /\ currentChunk (view (snd (session ControlsProperties.threeSentences
                                [PressNext; PressNext; PressNext; PressNext])))
     = 2%Z
  /\ (0 <= currentChunk (view (snd (session ControlsProperties.threeSentences
                                      samplePresses)))
      <= lastIndex (view (snd (session ControlsProperties.threeSentences
                                 samplePresses))))%Z.
Proof.
  split; [discriminate|]. split; [vm_compute; reflexivity|].
  apply (session_index_in_range ControlsProperties.threeSentences samplePresses).
  discriminate.
Defined.

Lemma spokenTexts_stop p : spokenTexts (onEngine Engine.stop p) = spokenTexts p.
Proof.
  unfold spokenTexts. cbn. rewrite flat_map_app. cbn. apply app_nil_r.
Qed.

(** X22. Run from a closure that captured [isPlaying = true], with a voice
    and a text, [handlePlay] hands every chunk from the captured index on
    to the synthesizer, in order, whichever utterances fail or are
    canceled; it ends with the page not playing, and with the index cell
    on the last chunk unless the captured index was already the last one,
    in which case the cell is 0. *)
Theorem handlePlay_speaks_the_rest (text : jsstring) (c : State)
        (voice : Engine.SpeechSynthesisVoice) (outcomes : Z -> Engine.Outcome)
        (p : Page) :
  selectedVoice c = Some voice -> text <> [] ->
  isPlaying c = true ->
  (forall j, outcomes j <> Engine.Stalls) ->
  (0 <= currentChunk c)%Z ->
  spokenTexts (handlePlay text c outcomes p)
  = spokenTexts p ++ skipn (Z.to_nat (currentChunk c)) (textChunks c)
  /\ isPlaying (view (handlePlay text c outcomes p)) = false
  /\ currentChunk (view (handlePlay text c outcomes p))
     = (if (currentChunk c >=? lastIndex c)%Z then 0 else lastIndex c)%Z.
Proof.
  intros Hv Ht Hp Hout Hi.
  exact (handlePlay_playing text c voice outcomes p Hv Ht Hp Hout Hi).
Qed.

Definition allCanceled (_ : Z) : Engine.Outcome :=
  Engine.Fails (js "canceled").

Lemma handlePlay_speaks_the_rest_witness :
  selectedVoice ControlsProperties.playingCells = Some ControlsProperties.samantha
  /\ isPlaying ControlsProperties.playingCells = true
  /\ spokenTexts (handlePlay ControlsProperties.threeSentences
                    ControlsProperties.playingCells allCanceled
                    ControlsProperties.loadedPage)
     = textChunks ControlsProperties.playingCells.
Proof.
  split; [reflexivity|]. split; [reflexivity|].
  rewrite (proj1 (handlePlay_speaks_the_rest ControlsProperties.threeSentences
                    ControlsProperties.playingCells ControlsProperties.samantha
                    allCanceled ControlsProperties.loadedPage
                    eq_refl ltac:(discriminate) eq_refl
                    ltac:(intros j; discriminate) ltac:(vm_compute; discriminate))).
  vm_compute. reflexivity.
Defined.

(** X23. [handleNext] from a closure that captured [isPlaying = true]
    moves the index cell forward, stops the wrapper and schedules the
    [handlePlay] of its own render; that [handlePlay] starts again at the
    index the closure captured, so the restart speaks the chunk that was
    just left, not the next one. *)
Theorem next_restarts_at_the_old_index (text : jsstring) (c : State)
        (voice : Engine.SpeechSynthesisVoice) (outcomes : Z -> Engine.Outcome)
        (p : Page) :
  selectedVoice c = Some voice -> text <> [] ->
  isPlaying c = true ->
  (forall j, outcomes j <> Engine.Stalls) ->
  (0 <= currentChunk c < lastIndex c)%Z ->
  currentChunk (view (handleNext c p)) = (currentChunk c + 1)%Z
  /\ effects (handleNext c p) = effects p ++ [RestartPlay 100 c]
  /\ spokenTexts (handlePlay text c outcomes (handleNext c p))
     = spokenTexts p ++ skipn (Z.to_nat (currentChunk c)) (textChunks c).
Proof.
  intros Hv Ht Hp Hout Hi.
  assert (E : handleNext c p
              = effect (RestartPlay 100 c)
                  (onEngine Engine.stop (setCurrentChunk (currentChunk c + 1) p))).
  { unfold handleNext. rewrite Hp.
    destruct (Z.ltb_spec (currentChunk c) (lastIndex c)); [reflexivity|lia]. }
  split; [rewrite E; reflexivity|]. split; [rewrite E; reflexivity|].
  rewrite (proj1 (handlePlay_playing text c voice outcomes (handleNext c p)
                    Hv Ht Hp Hout (proj1 Hi))).
  f_equal. rewrite E. unfold spokenTexts. cbn. rewrite flat_map_app. cbn.
  apply app_nil_r.
Qed.

Lemma next_restarts_at_the_old_index_witness :
  (0 <= currentChunk ControlsProperties.playingCells
   < lastIndex ControlsProperties.playingCells)%Z
  /\ currentChunk (view (handleNext ControlsProperties.playingCells
                           ControlsProperties.loadedPage)) = 1%Z
  /\ spokenTexts (handlePlay ControlsProperties.threeSentences
                    ControlsProperties.playingCells allCanceled
                    (handleNext ControlsProperties.playingCells
                       ControlsProperties.loadedPage))
     = textChunks ControlsProperties.playingCells.
Proof.
  assert (Hi : (0 <= currentChunk ControlsProperties.playingCells
                < lastIndex ControlsProperties.playingCells)%Z)
    by (vm_compute; split; [discriminate | reflexivity]).
  destruct (next_restarts_at_the_old_index ControlsProperties.threeSentences
              ControlsProperties.playingCells ControlsProperties.samantha
              allCanceled ControlsProperties.loadedPage
              eq_refl ltac:(discriminate) eq_refl
              ltac:(intros j; discriminate) Hi) as (Hc & _ & Hs).
  split; [exact Hi|]. split; [rewrite Hc; vm_compute; reflexivity|].
  rewrite Hs. vm_compute. reflexivity.
Defined.

End SessionProperties.

Module PlayerProperties.
Import Controls Player.

(** X24. Muting and unmuting gives the volume back: from a player that is
    not muted, the first press of the mute button sets the volume to 0 and
    the second restores the page as it was. *)
Theorem mute_round_trip (s : Screen) :
  isMuted (cells s) = false ->
  volume (view (page (mute s))) = 0
  /\ isMuted (cells (mute s)) = true
  /\ page (mute (mute s)) = page s
  /\ isMuted (cells (mute (mute s))) = false.
Proof.
  destruct s as [[[voice r pi vol playing paused cur chunks] w effs]
                   [muted prev slider]].
  cbn. intros ->. repeat split.
Qed.

Lemma mute_round_trip_witness :
  isMuted (cells (mount ControlsProperties.loadedPage)) = false
  /\ volume (view (page (mute (mount ControlsProperties.loadedPage)))) = 0
  /\ page (mute (mute (mount ControlsProperties.loadedPage)))
     = ControlsProperties.loadedPage.
Proof.
  split; [reflexivity|].
  destruct (mute_round_trip (mount ControlsProperties.loadedPage) eq_refl)
    as (H0 & _ & Hp & _).
  split; [exact H0 | exact Hp].
Defined.

End PlayerProperties.

Module PlayLog.
Import Controls ControlsFacts.

(** What one turn of the loop leaves in the log: a warning with the index
    and the message when the promise rejected, the pause between chunks
    when it resolved. *)
Definition chunkEffect (outcomes : Z -> Engine.Outcome) (i : Z) : Effect :=
  match EngineFacts.settlement (outcomes i) with
  | Engine.Rejected message => ConsoleWarn i message
  | _ => Sleep 100
  end.

(** The indices [i, i+1, ...] up to the last chunk. *)
Definition indicesFrom (c : State) (i : Z) : list Z :=
  map (fun k => (i + Z.of_nat k)%Z)
      (seq 0 (Z.to_nat (Z.of_nat (length (textChunks c)) - i))).

Lemma playChunk_effects c voice outcomes i p :
  outcomes i <> Engine.Stalls ->
  exists p',
    playChunk c voice outcomes i p = NextChunk p'
    /\ effects p' = effects p ++ [chunkEffect outcomes i].
Proof.
  intros Hout. unfold playChunk, chunkEffect.
  pose proof (EngineFacts.speakAndSettle_spec (chunkAt c i)
                (speakOptions voice c) (outcomes i)
                (engine (setCurrentChunk i p))) as H.
  destruct (Engine.speakAndSettle _ _ _ _) as [promise w].
  destruct H as [-> _].
  destruct (outcomes i) as [|error|]; [| |congruence]; cbn [EngineFacts.settlement].
  - eexists. split; reflexivity.
  - destruct (JsString.eqb error (js "canceled")); eexists; split; reflexivity.
Qed.

Lemma playLoop_effects c voice outcomes :
  isPlaying c = true ->
  (forall j, outcomes j <> Engine.Stalls) ->
  forall n i p,
    Z.to_nat (Z.of_nat (length (textChunks c)) - i) = n ->
    exists p',
      playLoop c voice outcomes i p = NextChunk p'
      /\ effects p' = effects p ++ map (chunkEffect outcomes) (indicesFrom c i).
Proof.
  intros Hplaying Hout. unfold indicesFrom.
  induction n as [|n IH]; intros i p Hn; rewrite playLoop_unfold, Hn.
  - destruct (Z_lt_dec _ _) as [Hlt|Hge]; [lia|].
    exists p. simpl. rewrite app_nil_r. auto.
  - destruct (Z_lt_dec _ _) as [Hlt|Hge]; [|lia]. rewrite Hplaying.
    destruct (playChunk_effects c voice outcomes i p (Hout i)) as (p1 & -> & He1).
    destruct (IH (i + 1)%Z p1) as (p' & -> & He); [lia|].
    exists p'. split; [reflexivity|].
    rewrite He, He1, <- app_assoc. f_equal.
    replace (Z.to_nat (Z.of_nat (length (textChunks c)) - (i + 1))) with n by lia.
    cbn [seq map app]. rewrite Z.add_0_r. f_equal.
    rewrite <- seq_shift, !map_map. apply map_ext. intros k.
    f_equal. lia.
Qed.

(** X25. The log of a [handlePlay] run from a closure that captured
    [isPlaying = true]: one entry per chunk from the captured index on, in
    order, a warning with the chunk's index and message for a chunk whose
    utterance failed, the 100 ms pause for a chunk whose utterance ended or
    was canceled (a failed chunk is not followed by the pause); then the
    "Playback completed" notice, also when every chunk failed. *)
Theorem handlePlay_log (text : jsstring) (c : State)
        (voice : Engine.SpeechSynthesisVoice) (outcomes : Z -> Engine.Outcome)
        (p : Page) :
  selectedVoice c = Some voice -> text <> [] ->
  isPlaying c = true ->
  (forall j, outcomes j <> Engine.Stalls) ->
  effects (handlePlay text c outcomes p)
  = effects p
      ++ map (chunkEffect outcomes) (indicesFrom c (currentChunk c))
      ++ [Toast (js "Playback completed")].
Proof.
  intros Hv Ht Hplaying Hout. unfold handlePlay. rewrite Hv.
  destruct text as [|a text]; [congruence|]. cbn [nonEmpty negb].
  destruct (playLoop_effects c voice outcomes Hplaying Hout _
              (currentChunk c)
              (setIsPaused false (setIsPlaying true p)) eq_refl)
    as (p2 & -> & He).
  cbv zeta. destruct (currentChunk c >=? lastIndex c)%Z; cbn;
    rewrite He; cbn; rewrite <- app_assoc; reflexivity.
Qed.

Definition allFail (_ : Z) : Engine.Outcome :=
  Engine.Fails (js "audio-busy").

Lemma handlePlay_log_witness :
  selectedVoice ControlsProperties.playingCells = Some ControlsProperties.samantha
  /\ effects (handlePlay ControlsProperties.threeSentences
                ControlsProperties.playingCells allFail
                ControlsProperties.loadedPage)
     = [ConsoleWarn 0 (js "Speech synthesis error: audio-busy");
        ConsoleWarn 1 (js "Speech synthesis error: audio-busy");
        ConsoleWarn 2 (js "Speech synthesis error: audio-busy");
        Toast (js "Playback completed")].
Proof.
  split; [reflexivity|].
  rewrite (handlePlay_log ControlsProperties.threeSentences
             ControlsProperties.playingCells ControlsProperties.samantha
             allFail ControlsProperties.loadedPage
             eq_refl ltac:(discriminate) eq_refl ltac:(intros j; discriminate)).
  vm_compute. reflexivity.
Defined.

End PlayLog.

(* ===================================================================== *)
(** ** Properties of the upload list *)
(* ===================================================================== *)

Module UploadProperties.
Import Extraction Upload TrimFacts CleanFacts.

Lemma eqb_refl s : JsString.eqb s s = true.
Proof. apply EngineFacts.jsstring_eqb_spec. reflexivity. Qed.

Lemma eqb_false s t : JsString.eqb s t = false <-> s <> t.
Proof.
  split.
  - intros E H. apply EngineFacts.jsstring_eqb_spec in H. congruence.
  - apply EngineFacts.jsstring_eqb_neq.
Qed.

(** Cleaning a cleaned text changes nothing. *)
Lemma cleaned_is_clean raw :
  cleanExtractedText (cleanExtractedText raw) = cleanExtractedText raw.
Proof.
  pose proof (clean_normalised raw) as Hn.
  rewrite (clean_is_trim_collapse (cleanExtractedText raw)).
  unfold collapseWhiteSpace. rewrite (collapseFrom_id _ _ Hn).
  rewrite clean_is_trim_collapse at 1 2. apply trim_idem.
Qed.

Lemma map_map_by_id fileId (g h : UploadedFile -> UploadedFile) rows :
  (forall r, id (h r) = id r) ->
  map (fun f => if JsString.eqb (id f) fileId then g f else f)
      (map (fun f => if JsString.eqb (id f) fileId then h f else f) rows)
  = map (fun f => if JsString.eqb (id f) fileId then g (h f) else f) rows.
Proof.
  intros Hid. rewrite map_map. apply map_ext. intros r.
  destruct (JsString.eqb (id r) fileId) eqn:E.
  - rewrite Hid, E. reflexivity.
  - rewrite E. reflexivity.
Qed.

Definition report : File :=
  {| fileName := js "report.pdf"; fileType := js "application/pdf";
     fileSize := 4096 |}.

Definition twoRows : State :=
  appendRows [(js "k3x9", ExtractionProperties.picture); (js "q7w2", report)]
    initialState.

Definition readsReport (_ : File) : Extracted :=
  Text (js "  Annual   report. " ++ [LF; LF] ++ js "Done. ").

(** X26. When the extraction fails, for whatever reason, the rows of that
    identifier end in the error state with progress 0 and the one message
    "Failed to extract text from file", their text as it was; the other
    rows, the order of the rows and the other cells are as before. *)
Theorem failed_extraction_marks_row
        (extractTextFromTxt extractTextFromPdf extractTextFromDocx : File -> Extracted)
        (backend : Backend) (fileId : jsstring) (f : File) (s : State)
        (message : jsstring) :
  extractTextFromFile extractTextFromTxt extractTextFromPdf extractTextFromDocx f
  = Failure message ->
  processFile extractTextFromTxt extractTextFromPdf extractTextFromDocx
    backend fileId f s
  = {| uploadedFiles :=
         map (fun r =>
                if JsString.eqb (id r) fileId
                then {| file := file r; id := id r; status := Errored;
                        progress := 0; extractedText := extractedText r;
                        error := Some (js "Failed to extract text from file") |}
                else r)
             (uploadedFiles s);
       expandedFiles := expandedFiles s;
       selectedFileForTTS := selectedFileForTTS s |}.
Proof.
  intros H. unfold processFile. rewrite H.
  assert (message = js "Failed to extract text from file") as ->.
  { unfold extractTextFromFile in H.
    destruct (extractByType _ _ _ f); [discriminate|]. congruence. }
  unfold updateById, updateFiles. cbn [uploadedFiles expandedFiles selectedFileForTTS].
  rewrite map_map_by_id by reflexivity. reflexivity.
Qed.

Lemma failed_extraction_marks_row_witness :
  extractTextFromFile ExtractionProperties.failedRead ExtractionProperties.failedRead
    ExtractionProperties.failedRead ExtractionProperties.picture
  = Failure (js "Failed to extract text from file")
  /\ map (fun r => (status r, error r))
         (uploadedFiles
            (processFile ExtractionProperties.failedRead
               ExtractionProperties.failedRead ExtractionProperties.failedRead
               SignedOut (js "k3x9") ExtractionProperties.picture twoRows))
     = [(Errored, Some (js "Failed to extract text from file"));
        (Uploading, None)].
Proof.
  assert (H : extractTextFromFile ExtractionProperties.failedRead
                ExtractionProperties.failedRead ExtractionProperties.failedRead
                ExtractionProperties.picture
              = Failure (js "Failed to extract text from file")) by reflexivity.
  split; [exact H|].
  rewrite (failed_extraction_marks_row ExtractionProperties.failedRead
             ExtractionProperties.failedRead ExtractionProperties.failedRead
             SignedOut (js "k3x9") ExtractionProperties.picture twoRows _ H).
  reflexivity.
Defined.

(** X27. When the extraction succeeds and the database client throws
    nothing, the rows of that identifier end completed at 100 with the
    cleaned text, whether a user is signed in or not and whether the
    insertion failed or not; the stored text is in clean form (cleaning it
    again changes nothing), and the other rows are as before. *)
Theorem successful_extraction_stores_clean_text
        (extractTextFromTxt extractTextFromPdf extractTextFromDocx : File -> Extracted)
        (backend : Backend) (fileId : jsstring) (f : File) (s : State)
        (rawText : jsstring) :
  extractTextFromFile extractTextFromTxt extractTextFromPdf extractTextFromDocx f
  = Text rawText ->
  (forall thrown, backend <> Throws thrown) ->
  uploadedFiles
    (processFile extractTextFromTxt extractTextFromPdf extractTextFromDocx
       backend fileId f s)
  = map (fun r =>
           if JsString.eqb (id r) fileId
           then {| file := file r; id := id r; status := Completed;
                   progress := 100;
                   extractedText := Some (cleanExtractedText rawText);
                   error := error r |}
           else r)
        (uploadedFiles s)
  /\ cleanExtractedText (cleanExtractedText rawText) = cleanExtractedText rawText.
Proof.
  intros H Hb. split; [|apply cleaned_is_clean].
  unfold processFile. rewrite H.
  unfold updateById, updateFiles.
  destruct backend as [insertFails| |thrown]; [| |exfalso; exact (Hb thrown eq_refl)];
    cbn [uploadedFiles expandedFiles selectedFileForTTS];
    rewrite !map_map_by_id by reflexivity; reflexivity.
Qed.

Lemma successful_extraction_stores_clean_text_witness :
  extractTextFromFile ExtractionProperties.failedRead readsReport
    ExtractionProperties.failedRead report
  = Text (js "  Annual   report. " ++ [LF; LF] ++ js "Done. ")
  /\ map (fun r => (status r, extractedText r))
         (uploadedFiles
            (processFile ExtractionProperties.failedRead readsReport
               ExtractionProperties.failedRead (SignedIn true) (js "q7w2")
               report twoRows))
     = [(Uploading, None); (Completed, Some (js "Annual report. Done."))].
Proof.
  assert (H : extractTextFromFile ExtractionProperties.failedRead readsReport
                ExtractionProperties.failedRead report
              = Text (js "  Annual   report. " ++ [LF; LF] ++ js "Done. "))
    by reflexivity.
  split; [exact H|].
  rewrite (proj1 (successful_extraction_stores_clean_text
                    ExtractionProperties.failedRead readsReport
                    ExtractionProperties.failedRead (SignedIn true) (js "q7w2")
                    report twoRows _ H ltac:(intros thrown; discriminate))).
  reflexivity.
Defined.

Lemma setHas_delete s x y :
  setHas (setDelete s x) y = setHas s y && negb (JsString.eqb y x).
Proof.
  unfold setHas, setDelete. induction s as [|z s IH]; simpl; [reflexivity|].
  destruct (JsString.eqb z x) eqn:Ezx; simpl.
  - rewrite IH. destruct (JsString.eqb z y) eqn:Ezy; simpl; [|reflexivity].
    apply EngineFacts.jsstring_eqb_spec in Ezx, Ezy. subst.
    rewrite eqb_refl. simpl. rewrite andb_false_r. reflexivity.
  - rewrite IH. destruct (JsString.eqb z y) eqn:Ezy; simpl; [|reflexivity].
    apply EngineFacts.jsstring_eqb_spec in Ezy. subst z. rewrite Ezx. reflexivity.
Qed.

Lemma setHas_add s x y :
  setHas (setAdd s x) y = setHas s y || JsString.eqb x y.
Proof.
  unfold setAdd. destruct (setHas s x) eqn:H.
  - destruct (JsString.eqb x y) eqn:E; [|rewrite orb_false_r; reflexivity].
    apply EngineFacts.jsstring_eqb_spec in E. subst y. rewrite H. reflexivity.
  - unfold setHas. rewrite existsb_app. simpl. rewrite orb_false_r. reflexivity.
Qed.

Lemma eqb_sym s t : JsString.eqb s t = JsString.eqb t s.
Proof.
  destruct (JsString.eqb s t) eqn:E.
  - apply EngineFacts.jsstring_eqb_spec in E. subst. symmetry. apply eqb_refl.
  - apply eqb_false in E. symmetry. apply eqb_false. congruence.
Qed.

(** X28. After [removeFile] no row has the identifier, the identifier is
    not among the expanded ones and no file of that identifier is selected
    for speech, so that its text is no longer handed to the speech
    controls; rows and expansions of other identifiers, and a selection of
    another identifier, are kept. *)
Theorem removeFile_leaves_no_trace (fileId : jsstring) (s : State) :
  (forall r, In r (uploadedFiles (removeFile fileId s))
             <-> In r (uploadedFiles s) /\ id r <> fileId)
  /\ setHas (expandedFiles (removeFile fileId s)) fileId = false
  /\ (forall x, x <> fileId ->
        setHas (expandedFiles (removeFile fileId s)) x
        = setHas (expandedFiles s) x)
  /\ (forall f, selectedFileForTTS (removeFile fileId s) = Some f ->
        id f <> fileId /\ selectedFileForTTS s = Some f)
  /\ (forall f, selectedFileForTTS s = Some f -> id f <> fileId ->
        selectedFileForTTS (removeFile fileId s) = Some f).
Proof.
  unfold removeFile. cbn [uploadedFiles expandedFiles selectedFileForTTS].
  split; [|split; [|split; [|split]]].
  - intros r. rewrite filter_In, negb_true_iff, eqb_false. reflexivity.
  - rewrite setHas_delete, eqb_refl. apply andb_false_r.
  - intros x Hx. rewrite setHas_delete.
    rewrite (proj2 (eqb_false x fileId) Hx). apply andb_true_r.
  - intros f. destruct (selectedFileForTTS s) as [g|]; [|discriminate].
    destruct (JsString.eqb (id g) fileId) eqn:E; [discriminate|].
    intros [= ->]. split; [apply eqb_false, E | reflexivity].
  - intros f -> Hf. rewrite (proj2 (eqb_false _ _) Hf). reflexivity.
Qed.

Definition busyList : State :=
  selectFileForTTS (newRow (js "q7w2", report))
    (toggleTextExpansion (js "k3x9") (toggleTextExpansion (js "q7w2") twoRows)).

Lemma removeFile_leaves_no_trace_witness :
  map id (uploadedFiles (removeFile (js "q7w2") busyList)) = [js "k3x9"]
  /\ setHas (expandedFiles (removeFile (js "q7w2") busyList)) (js "q7w2") = false
  /\ setHas (expandedFiles (removeFile (js "q7w2") busyList)) (js "k3x9") = true
  /\ selectedFileForTTS (removeFile (js "k3x9") busyList)
     = Some (newRow (js "q7w2", report)).
Proof.
  destruct (removeFile_leaves_no_trace (js "q7w2") busyList)
    as (_ & Hgone & Hkept & _).
  destruct (removeFile_leaves_no_trace (js "k3x9") busyList)
    as (_ & _ & _ & _ & Hsel).
  split; [reflexivity|]. split; [exact Hgone|].
  split; [rewrite Hkept; [reflexivity | discriminate]|].
  apply Hsel; [reflexivity | discriminate].
Defined.

(** X29. [toggleTextExpansion] flips whether its identifier is expanded and
    nothing else about the expansions; toggling twice gives every
    identifier its former state. *)
Theorem toggleTextExpansion_flips (fileId : jsstring) (s : State) :
  (forall x,
     setHas (expandedFiles (toggleTextExpansion fileId s)) x
     = if JsString.eqb x fileId
       then negb (setHas (expandedFiles s) fileId)
       else setHas (expandedFiles s) x)
  /\ (forall x,
        setHas (expandedFiles
                  (toggleTextExpansion fileId (toggleTextExpansion fileId s))) x
        = setHas (expandedFiles s) x).
Proof.
  assert (Hflip : forall t x,
            setHas (expandedFiles (toggleTextExpansion fileId t)) x
            = if JsString.eqb x fileId
              then negb (setHas (expandedFiles t) fileId)
              else setHas (expandedFiles t) x).
  { intros t x. unfold toggleTextExpansion. cbn [expandedFiles].
    destruct (setHas (expandedFiles t) fileId) eqn:H.
    - rewrite setHas_delete. destruct (JsString.eqb x fileId) eqn:E; simpl.
      + apply andb_false_r.
      + apply andb_true_r.
    - rewrite setHas_add, (eqb_sym fileId x).
      destruct (JsString.eqb x fileId) eqn:E; simpl.
      + apply orb_true_r.
      + apply orb_false_r. }
  split; [apply Hflip|].
  intros x. rewrite !Hflip.
  destruct (JsString.eqb x fileId) eqn:E.
  - rewrite eqb_refl, negb_involutive.
    apply EngineFacts.jsstring_eqb_spec in E. subst x. reflexivity.
  - reflexivity.
Qed.

End UploadProperties.
